(** * thriftrw-go: the streaming binary reader and the enum compiler

    A shallow embedding of [protocol/binary/stream_reader.go] (the
    [StreamReader] of the Thrift binary protocol) and of the enum part of the
    IDL compiler, with the properties their specification states.

    Go values are modelled as follows.
    - A [byte] is [Byte.byte]; [u8] gives its value in [0, 256).
    - [int8], [int16], [int32] and [int64] are [Z], produced by the
      conversions [int8] ... [int64] that wrap around as Go's conversions do.
    - An [error] is a value of the inductive type [error]; a Go [error]
      result is [option error], with [None] for [nil].
    - A [[]byte] result is a [slice]: [None] is the nil slice.
    - A method on [*StreamReader] takes the reader state and returns the new
      state as the last component of its result. *)

From Stdlib Require Import String Ascii.
From Stdlib Require Import ZArith List Bool Lia.
From Stdlib.Strings Require Import Byte.
Import ListNotations.
Open Scope Z_scope.

Set Implicit Arguments.

(** ** Machine integers *)

Definition u8 (b : byte) : Z := Z.of_N (Byte.to_N b).

(** Go's conversion of an unsigned [w]-bit pattern to the signed type of the
    same width. *)
Definition signed (w : Z) (x : Z) : Z :=
  let m := x mod 2 ^ w in
  if m <? 2 ^ (w - 1) then m else m - 2 ^ w.

Definition int8 (x : Z) : Z := signed 8 x.
Definition int16 (x : Z) : Z := signed 16 x.
Definition int32 (x : Z) : Z := signed 32 x.
Definition int64 (x : Z) : Z := signed 64 x.

(** [bs[i]] on a slice; the default is never reached on the slices the reader
    builds. *)
Definition idx (bs : list byte) (i : nat) : Z := u8 (nth i bs x00).

(** [encoding/binary.BigEndian] *)
Module bigEndian.

Definition Uint16 (b : list byte) : Z :=
  Z.lor (idx b 1) (Z.shiftl (idx b 0) 8).

Definition Uint32 (b : list byte) : Z :=
  Z.lor (Z.lor (Z.lor (idx b 3) (Z.shiftl (idx b 2) 8))
               (Z.shiftl (idx b 1) 16))
        (Z.shiftl (idx b 0) 24).

Definition Uint64 (b : list byte) : Z :=
  Z.lor (Z.lor (Z.lor (Z.lor (Z.lor (Z.lor (Z.lor
    (idx b 7)
    (Z.shiftl (idx b 6) 8))
    (Z.shiftl (idx b 5) 16))
    (Z.shiftl (idx b 4) 24))
    (Z.shiftl (idx b 3) 32))
    (Z.shiftl (idx b 2) 40))
    (Z.shiftl (idx b 1) 48))
    (Z.shiftl (idx b 0) 56).

End bigEndian.

(** ** Errors

    [EOF] and [ErrUnexpectedEOF] are the two sentinel errors of package [io];
    [ErrIO] stands for any other error of the underlying byte source.  The
    remaining constructors are the errors the reader builds with
    [fmt.Errorf], one per format string, carrying the formatted argument. *)
Inductive error : Type :=
| EOF
| ErrUnexpectedEOF
| ErrIO (msg : string)
| ErrInvalidBool (b : byte)           (* invalid bool value: %q *)
| ErrNegativeBinaryLength (n : Z)     (* negative length %v specified for binary field *)
| ErrNegativeLength (n : Z)           (* got negative length: %v *)
| ErrInvalidStopField (v : Z)         (* invalid stop field: %v *)
| ErrUnknownTType (t : Z).            (* unknown ttype %v *)

Definition isEOF (err : option error) : bool :=
  match err with Some EOF => true | _ => false end.

(** The error kinds of the specification. *)
Definition isInvalidLength (e : error) : bool :=
  match e with
  | ErrNegativeBinaryLength _ | ErrNegativeLength _ => true
  | _ => false
  end.

Definition slice : Type := option (list byte).

(** ** Package io *)
Module io.

(** What the byte source will do on its next calls to [Read]: deliver a
    chunk of bytes (over several calls when a call asks for less than the
    chunk holds, in one short read when it asks for more), or fail, in
    which case the call delivers no byte.  A source whose events are used
    up is at end of file.  An in-memory source such as [bytes.Reader] is a
    single chunk; a connection is a sequence of chunks. *)
Inductive event : Type :=
| Data (bs : list byte)
| Fault (e : error).

Definition Reader : Type := list event.

(** [r.Read(p)] with [len(p) = n]: the bytes stored at the front of [p],
    the error and the source afterwards. *)
Definition Read (r : Reader) (n : nat) : list byte * option error * Reader :=
  match r with
  | [] => ([], Some EOF, [])
  | Fault e :: rest => ([], Some e, rest)
  | Data c :: rest =>
      if (length c <=? n)%nat then (c, None, rest)
      else (firstn n c, None, Data (skipn n c) :: rest)
  end.

(** [io.CopyN(dst, src, n)], by its contract: it reads from [src] until [n]
    bytes are copied or [src] returns an error; short reads are read on
    from; the result is [nil] when [n] bytes were copied, [EOF] when [src]
    ended before, and the error of [src] otherwise.  With [n <= 0] the
    source is not read.  The bytes written to [dst] are returned first. *)
Fixpoint CopyN (src : Reader) (n : Z) {struct src}
  : list byte * option error * Reader :=
  if n <=? 0 then ([], None, src)
  else
    match src with
    | [] => ([], Some EOF, [])
    | Fault e :: rest => ([], Some e, rest)
    | Data c :: rest =>
        if Z.of_nat (length c) <=? n then
          let '(w, err, r) := CopyN rest (n - Z.of_nat (length c)) in
          (c ++ w, err, r)
        else
          (firstn (Z.to_nat n) c, None, Data (skipn (Z.to_nat n) c) :: rest)
    end.

(** The bytes a source still holds, and whether it never fails. *)
Fixpoint pending (r : Reader) : list byte :=
  match r with
  | [] => []
  | Data c :: rest => c ++ pending rest
  | Fault _ :: rest => pending rest
  end.

Fixpoint faultless (r : Reader) : bool :=
  match r with
  | [] => true
  | Data _ :: rest => faultless rest
  | Fault _ :: _ => false
  end.

(** What a source has left, counting its events and its bytes: no read
    makes it larger, and a read that delivers a byte makes it smaller. *)
Fixpoint weight (r : Reader) : nat :=
  match r with
  | [] => O
  | Data c :: rest => S (length c + weight rest)
  | Fault _ :: rest => S (weight rest)
  end.

(** A source holding the bytes [bs] in one chunk, followed by [rest]. *)
Definition unread (bs : list byte) (rest : Reader) : Reader :=
  match bs with
  | [] => rest
  | _ => Data bs :: rest
  end.

End io.

(** ** Package wire: the type codes

    Modelled from the spec: package [wire] is not among the sources.  The
    wire type codes are BOOL=2, I8=3, DOUBLE=4, I16=6, I32=8, I64=10,
    BINARY=11, STRUCT=12, MAP=13, SET=14, LIST=15. *)
Module wire.

(** [wire.Type], an [int8]. *)
Definition Type_ : Type := Z.

Definition TBool : Type_ := 2.
Definition TI8 : Type_ := 3.
Definition TDouble : Type_ := 4.
Definition TI16 : Type_ := 6.
Definition TI32 : Type_ := 8.
Definition TI64 : Type_ := 10.
Definition TBinary : Type_ := 11.
Definition TStruct : Type_ := 12.
Definition TMap : Type_ := 13.
Definition TSet : Type_ := 14.
Definition TList : Type_ := 15.

End wire.

(** ** Package stream: the headers

    The header types are declared outside the sources; their fields are the
    ones the reader assigns. *)
Module stream.

Record FieldHeader : Type := { ID : Z; Type_ : wire.Type_ }.

Record ListHeader : Type := { ListType : wire.Type_; ListLength : Z }.

Record SetHeader : Type := { SetType : wire.Type_; SetLength : Z }.

Record MapHeader : Type :=
  { KeyType : wire.Type_; ValueType : wire.Type_; MapLength : Z }.

End stream.

(** ** Package binary: the streaming reader *)
Module binary.

Import wire.

(** Modelled from the spec: [fixedWidth] is declared in the package's
    non-streaming reader, which is not among the sources.  The fixed-width
    scalars are BOOL, I8, I16, I32, I64 and DOUBLE, each as wide as its
    encoding (one byte for a boolean, [w / 8] bytes for a [w]-bit integer,
    eight for a double); every other type has width 0, which is how [Skip]
    tells the two apart. *)
Definition fixedWidth (t : Type_) : Z :=
  if t =? TBool then 1
  else if t =? TI8 then 1
  else if t =? TDouble then 8
  else if t =? TI16 then 2
  else if t =? TI32 then 4
  else if t =? TI64 then 8
  else 0.

(** The scratch array [buffer [8]byte]. *)
Record array8 : Type :=
  Array8 { a0 : byte; a1 : byte; a2 : byte; a3 : byte;
           a4 : byte; a5 : byte; a6 : byte; a7 : byte }.

Definition elems (a : array8) : list byte :=
  [a0 a; a1 a; a2 a; a3 a; a4 a; a5 a; a6 a; a7 a].

(** The array after [bs] is written over its front. *)
Definition store (bs : list byte) (a : array8) : array8 :=
  let l := bs ++ skipn (length bs) (elems a) in
  Array8 (nth 0 l x00) (nth 1 l x00) (nth 2 l x00) (nth 3 l x00)
         (nth 4 l x00) (nth 5 l x00) (nth 6 l x00) (nth 7 l x00).

Record StreamReader : Type :=
  { reader : io.Reader; buffer : array8 }.

Definition NewStreamReader (r : io.Reader) : StreamReader :=
  {| reader := r; buffer := Array8 x00 x00 x00 x00 x00 x00 x00 x00 |}.

Definition withReader (sr : StreamReader) (r : io.Reader) : StreamReader :=
  {| reader := r; buffer := buffer sr |}.

(** [sr.read(bs)]: the count, the error, the contents of [bs] afterwards
    and the reader. *)
Definition read (sr : StreamReader) (bs : list byte)
  : nat * option error * list byte * StreamReader :=
  let '(data, err, r) := io.Read (reader sr) (length bs) in
  let n := length data in
  let err :=
    if isEOF err || (n <? length bs)%nat then Some ErrUnexpectedEOF else err in
  (n, err, data ++ skipn n bs, withReader sr r).

(** [bs := sr.buffer[0:k]; _, err := sr.read(bs)]: the slice shares the
    scratch array, which the read therefore updates. *)
Definition readBuffer (sr : StreamReader) (k : nat)
  : list byte * option error * StreamReader :=
  let '(_, err, bs, sr') := read sr (firstn k (elems (buffer sr))) in
  (bs, err, {| reader := reader sr'; buffer := store bs (buffer sr') |}).

Definition discard (sr : StreamReader) (n : Z) : option error * StreamReader :=
  let '(_, err, r) := io.CopyN (reader sr) n in
  let err := if isEOF err then Some ErrUnexpectedEOF else err in
  (err, withReader sr r).

Definition ReadBool (sr : StreamReader) : bool * option error * StreamReader :=
  let '(bs, err, sr) := readBuffer sr 1 in
  match err with
  | Some e => (false, Some e, sr)
  | None =>
      if idx bs 0 =? 0 then (false, None, sr)
      else if idx bs 0 =? 1 then (true, None, sr)
      else (false, Some (ErrInvalidBool (nth 0 bs x00)), sr)
  end.

Definition ReadInt8 (sr : StreamReader) : Z * option error * StreamReader :=
  let '(bs, err, sr) := readBuffer sr 1 in
  (int8 (idx bs 0), err, sr).

Definition ReadInt16 (sr : StreamReader) : Z * option error * StreamReader :=
  let '(bs, err, sr) := readBuffer sr 2 in
  (int16 (bigEndian.Uint16 bs), err, sr).

Definition ReadInt32 (sr : StreamReader) : Z * option error * StreamReader :=
  let '(bs, err, sr) := readBuffer sr 4 in
  (int32 (bigEndian.Uint32 bs), err, sr).

Definition ReadInt64 (sr : StreamReader) : Z * option error * StreamReader :=
  let '(bs, err, sr) := readBuffer sr 8 in
  (int64 (bigEndian.Uint64 bs), err, sr).

Section Binary.

(** The constant [bytesAllocThreshold] is declared outside the sources;
    the reader is modelled for any value of it. *)
Variable bytesAllocThreshold : Z.

Definition ReadBinary (sr : StreamReader) : slice * option error * StreamReader :=
  let '(length, err, sr) := ReadInt32 sr in
  match err with
  | Some e => (None, Some e, sr)
  | None =>
      if length <? 0 then (None, Some (ErrNegativeBinaryLength length), sr)
      else if length =? 0 then (Some [], None, sr)
      else if length >? bytesAllocThreshold then
        let '(buf, err, r) := io.CopyN (reader sr) length in
        let err := if isEOF err then Some ErrUnexpectedEOF else err in
        (Some buf, err, withReader sr r)
      else
        let bs := repeat x00 (Z.to_nat length) in
        let '(_, err, bs, sr) := read sr bs in
        (Some bs, err, sr)
  end.

(** [string(bs)]: a string is its bytes; the nil slice gives the empty
    string. *)
Definition ReadString (sr : StreamReader) : list byte * option error * StreamReader :=
  let '(bs, err, sr) := ReadBinary sr in
  (match bs with Some l => l | None => [] end, err, sr).

End Binary.

Definition ReadStructBegin (sr : StreamReader) : option error * StreamReader :=
  (None, sr).

Definition ReadStructEnd (sr : StreamReader) : option error * StreamReader :=
  let '(end_, err, sr) := ReadInt8 sr in
  match err with
  | Some e => (Some e, sr)
  | None =>
      if negb (end_ =? 0) then (Some (ErrInvalidStopField end_), sr)
      else (None, sr)
  end.

(** The zero value [stream.FieldHeader{}]. *)
Definition fh0 : stream.FieldHeader := {| stream.ID := 0; stream.Type_ := 0 |}.

Definition ReadFieldBegin (sr : StreamReader)
  : stream.FieldHeader * bool * option error * StreamReader :=
  let fh := fh0 in
  let '(fieldType, err, sr) := ReadInt8 sr in
  match err with
  | Some e => (fh, false, Some e, sr)
  | None =>
      let '(fieldID, err, sr) := ReadInt16 sr in
      match err with
      | Some e => (fh, false, Some e, sr)
      | None =>
          ({| stream.ID := fieldID; stream.Type_ := fieldType |}, true, err, sr)
      end
  end.

Definition ReadFieldEnd (sr : StreamReader) : option error * StreamReader :=
  (None, sr).

Definition readTypeSizeHeader (sr : StreamReader)
  : Type_ * Z * option error * StreamReader :=
  let '(elemType, err, sr) := ReadInt8 sr in
  match err with
  | Some e => (0, 0, Some e, sr)
  | None =>
      let '(size, err, sr) := ReadInt32 sr in
      match err with
      | Some e => (0, 0, Some e, sr)
      | None =>
          if size <? 0 then (0, 0, Some (ErrNegativeLength size), sr)
          else (elemType, size, None, sr)
      end
  end.

Definition lh0 : stream.ListHeader :=
  {| stream.ListType := 0; stream.ListLength := 0 |}.

Definition ReadListBegin (sr : StreamReader)
  : stream.ListHeader * option error * StreamReader :=
  let lh := lh0 in
  let '(elemType, listSize, err, sr) := readTypeSizeHeader sr in
  match err with
  | Some e => (lh, Some e, sr)
  | None =>
      ({| stream.ListType := elemType; stream.ListLength := listSize |}, None, sr)
  end.

Definition ReadListEnd (sr : StreamReader) : option error * StreamReader :=
  (None, sr).

Definition sh0 : stream.SetHeader :=
  {| stream.SetType := 0; stream.SetLength := 0 |}.

Definition ReadSetBegin (sr : StreamReader)
  : stream.SetHeader * option error * StreamReader :=
  let sh := sh0 in
  let '(elemType, setSize, err, sr) := readTypeSizeHeader sr in
  match err with
  | Some e => (sh, Some e, sr)
  | None =>
      ({| stream.SetType := elemType; stream.SetLength := setSize |}, None, sr)
  end.

Definition ReadSetEnd (sr : StreamReader) : option error * StreamReader :=
  (None, sr).

Definition mh0 : stream.MapHeader :=
  {| stream.KeyType := 0; stream.ValueType := 0; stream.MapLength := 0 |}.

Definition ReadMapBegin (sr : StreamReader)
  : stream.MapHeader * option error * StreamReader :=
  let mh := mh0 in
  let '(keyType, err, sr) := ReadInt8 sr in
  match err with
  | Some e => (mh, Some e, sr)
  | None =>
      let '(valueType, err, sr) := ReadInt8 sr in
      match err with
      | Some e => (mh, Some e, sr)
      | None =>
          let '(size, err, sr) := ReadInt32 sr in
          match err with
          | Some e => (mh, Some e, sr)
          | None =>
              if size <? 0 then (mh, Some (ErrNegativeLength size), sr)
              else
                ({| stream.KeyType := keyType;
                    stream.ValueType := valueType;
                    stream.MapLength := size |}, None, sr)
          end
      end
  end.

Definition ReadMapEnd (sr : StreamReader) : option error * StreamReader :=
  (None, sr).

(** [Skip] and its helpers call one another, and their loops run as long
    as the input says.  They are defined by recursion on a bound [fuel] on
    the depth of calls and loop rounds: [None] says the bound was reached,
    [Some] carries the result of the Go function.  [Skip_terminates] below
    shows that every call has a result once the bound is large enough. *)
Fixpoint Skip (fuel : nat) (t : Type_) (sr : StreamReader) {struct fuel}
  : option (option error * StreamReader) :=
  match fuel with
  | O => None
  | S fuel =>
      if fixedWidth t >? 0 then Some (discard sr (fixedWidth t))
      else if t =? TBinary then
        let '(length, err, sr) := ReadInt32 sr in
        match err with
        | Some e => Some (Some e, sr)
        | None =>
            if length <? 0 then Some (Some (ErrNegativeLength length), sr)
            else Some (discard sr length)
        end
      else if t =? TStruct then skipStruct fuel sr
      else if t =? TMap then skipMap fuel sr
      else if t =? TSet then skipList fuel sr
      else if t =? TList then skipList fuel sr
      else Some (Some (ErrUnknownTType t), sr)
  end

with skipStruct (fuel : nat) (sr : StreamReader) {struct fuel}
  : option (option error * StreamReader) :=
  match fuel with
  | O => None
  | S fuel =>
      let '(fieldType, err, sr) := ReadInt8 sr in
      match err with
      | Some e => Some (Some e, sr)
      | None => skipStructLoop fuel fieldType sr
      end
  end

(** [for fieldType != 0 { ... }] *)
with skipStructLoop (fuel : nat) (fieldType : Z) (sr : StreamReader) {struct fuel}
  : option (option error * StreamReader) :=
  match fuel with
  | O => None
  | S fuel =>
      if negb (fieldType =? 0) then
        let '(err, sr) := discard sr 2 in
        match err with
        | Some e => Some (Some e, sr)
        | None =>
            match Skip fuel fieldType sr with
            | None => None
            | Some (Some e, sr) => Some (Some e, sr)
            | Some (None, sr) =>
                let '(fieldType, err, sr) := ReadInt8 sr in
                match err with
                | Some e => Some (Some e, sr)
                | None => skipStructLoop fuel fieldType sr
                end
            end
        end
      else Some (None, sr)
  end

with skipMap (fuel : nat) (sr : StreamReader) {struct fuel}
  : option (option error * StreamReader) :=
  match fuel with
  | O => None
  | S fuel =>
      let '(keyRaw, err, sr) := ReadInt8 sr in
      match err with
      | Some e => Some (Some e, sr)
      | None =>
          let '(valueRaw, err, sr) := ReadInt8 sr in
          match err with
          | Some e => Some (Some e, sr)
          | None =>
              let '(size, err, sr) := ReadInt32 sr in
              match err with
              | Some e => Some (Some e, sr)
              | None =>
                  if size <? 0 then Some (Some (ErrNegativeLength size), sr)
                  else
                    let key := keyRaw in
                    let keyWidth := fixedWidth key in
                    let value := valueRaw in
                    let valueWidth := fixedWidth value in
                    if (keyWidth >? 0) && (valueWidth >? 0) then
                      let length := size * (keyWidth + valueWidth) in
                      Some (discard sr length)
                    else skipMapLoop fuel 0 size key value sr
              end
          end
      end
  end

(** [for i := int32(0); i < size; i++ { ... }] *)
with skipMapLoop (fuel : nat) (i size : Z) (key value : Type_)
                 (sr : StreamReader) {struct fuel}
  : option (option error * StreamReader) :=
  match fuel with
  | O => None
  | S fuel =>
      if i <? size then
        match Skip fuel key sr with
        | None => None
        | Some (Some e, sr) => Some (Some e, sr)
        | Some (None, sr) =>
            match Skip fuel value sr with
            | None => None
            | Some (Some e, sr) => Some (Some e, sr)
            | Some (None, sr) => skipMapLoop fuel (i + 1) size key value sr
            end
        end
      else Some (None, sr)
  end

with skipList (fuel : nat) (sr : StreamReader) {struct fuel}
  : option (option error * StreamReader) :=
  match fuel with
  | O => None
  | S fuel =>
      let '(elemType, size, err, sr) := readTypeSizeHeader sr in
      match err with
      | Some e => Some (Some e, sr)
      | None =>
          let width := fixedWidth elemType in
          if width >? 0 then
            let length := width * size in
            Some (discard sr length)
          else skipListLoop fuel 0 size elemType sr
      end
  end

(** [for i := 0; i < size; i++ { ... }] *)
with skipListLoop (fuel : nat) (i size : Z) (elemType : Type_)
                  (sr : StreamReader) {struct fuel}
  : option (option error * StreamReader) :=
  match fuel with
  | O => None
  | S fuel =>
      if i <? size then
        match Skip fuel elemType sr with
        | None => None
        | Some (Some e, sr) => Some (Some e, sr)
        | Some (None, sr) => skipListLoop fuel (i + 1) size elemType sr
        end
      else Some (None, sr)
  end.

End binary.

(** ** Package ast: enum declarations *)
Module ast.

(** An enum item as parsed: its name and its value when the source gives
    one ([Value *int]). *)
Record EnumItem : Type := { ItemName : string; ItemValue : option Z }.

Record Enum : Type := { Name : string; Items : list EnumItem }.

End ast.

(** ** Package compile: enums *)
Module compile.

Local Open Scope string_scope.

(** An item of a compiled enum; its value is an [int32]. *)
Record EnumItem : Type := { ItemName : string; ItemValue : Z }.

Record EnumSpec : Type := { Name : string; Items : list EnumItem }.

(** Modelled from the spec: the error type of the compiler is not among the
    sources.  A compile error names the symbol being compiled and the
    reason. *)
Record compileError : Type := { Target : string; Reason : string }.

(** [%q] of a string without characters to escape. *)
Definition quote (s : string) : string :=
  String "034"%char (s ++ String "034"%char EmptyString).

(** Modelled from the spec: the message of a compile error starts with
    [cannot compile], the quoted symbol and a colon, and goes on with the
    reason. *)
Definition Error (e : compileError) : string :=
  "cannot compile " ++ quote (Target e) ++ ": " ++ Reason e.

(** Modelled from the spec: the reason given for an item whose name an
    earlier item has, as the test expects it. *)
Definition nameConflict (name : string) : string :=
  "the name " ++ quote name ++ " has already been used".

(** The names claimed so far hold [name]. *)
Definition claimed (names : list string) (name : string) : bool :=
  existsb (String.eqb name) names.

(** Modelled from the spec: [compileEnum] is declared in the compiler, of
    which only the test file is among the sources.  Items are taken in
    order; an item without an explicit value takes the value of the
    previous item plus one, and 0 when it is the first; an explicit value
    is kept; item values are [i32]; an item whose name an earlier item of
    the enum has fails the compilation with an error that names
    [Enum.Item].  [names] are the names claimed so far and [prev] the value
    of the previous item, if any.  The spec does not say what becomes of a
    value outside the range of [i32]: the value is converted as Go's
    [int32(value)] converts it. *)
Fixpoint compileItems (enum : string) (names : list string) (prev : option Z)
                      (items : list ast.EnumItem)
  : list EnumItem + compileError :=
  match items with
  | [] => inl []
  | astItem :: rest =>
      let name := ast.ItemName astItem in
      if claimed names name then
        inr {| Target := enum ++ "." ++ name; Reason := nameConflict name |}
      else
        let value :=
          int32 match ast.ItemValue astItem, prev with
                | Some v, _ => v
                | None, Some p => p + 1
                | None, None => 0
                end in
        match compileItems enum (name :: names) (Some value) rest with
        | inl items => inl ({| ItemName := name; ItemValue := value |} :: items)
        | inr err => inr err
        end
  end.

Definition compileEnum (src : ast.Enum) : EnumSpec + compileError :=
  match compileItems (ast.Name src) [] None (ast.Items src) with
  | inl items => inl {| Name := ast.Name src; Items := items |}
  | inr err => inr err
  end.

(** [strings.Contains] *)
Definition Contains (s substr : string) : bool :=
  match String.index 0 substr s with
  | Some _ => true
  | None => false
  end.

End compile.

(** ** The enums of the compiler's tests

    [TestCompileEnumSuccess] and [TestCompileEnumFailure] parse their
    sources with the IDL parser; the declarations are given here as the
    parser returns them. *)
Module enum_test.

Local Open Scope string_scope.

Definition item (name : string) : ast.EnumItem :=
  {| ast.ItemName := name; ast.ItemValue := None |}.

Definition itemv (name : string) (value : Z) : ast.EnumItem :=
  {| ast.ItemName := name; ast.ItemValue := Some value |}.

(** [enum Role { Disabled, User, Moderator, Admin }] *)
Definition Role : ast.Enum :=
  {| ast.Name := "Role";
     ast.Items := [item "Disabled"; item "User"; item "Moderator"; item "Admin"] |}.

(** [enum CommentStatus { Visible = 12345, Hidden = 54321 }] *)
Definition CommentStatus : ast.Enum :=
  {| ast.Name := "CommentStatus";
     ast.Items := [itemv "Visible" 12345; itemv "Hidden" 54321] |}.

(** [enum foo { A, B, C = 10, D, E }] *)
Definition foo : ast.Enum :=
  {| ast.Name := "foo";
     ast.Items := [item "A"; item "B"; itemv "C" 10; item "D"; item "E"] |}.

(** [enum bar { A, B = 0, C, D = 0, E }] *)
Definition bar : ast.Enum :=
  {| ast.Name := "bar";
     ast.Items := [item "A"; itemv "B" 0; item "C"; itemv "D" 0; item "E"] |}.

(** [enum Foo { A, B, C, A, D }] *)
Definition Foo : ast.Enum :=
  {| ast.Name := "Foo";
     ast.Items := [item "A"; item "B"; item "C"; item "A"; item "D"] |}.

Definition spec (name : string) (items : list (string * Z)) : compile.EnumSpec :=
  {| compile.Name := name;
     compile.Items :=
       map (fun '(n, v) => {| compile.ItemName := n; compile.ItemValue := v |}) items |}.

End enum_test.

(** ** Vocabulary of the statements *)

Import binary.

(** The error of a result. *)
Definition errOf {A : Type} (r : A * option error * StreamReader) : option error :=
  snd (fst r).

(** A call that took the reader from [sr] to [sr'] with the error [err] did
    not return [io.EOF] and left no more input than it found; [consumes]
    says besides that a call without error took some input. *)
Definition steps (sr : StreamReader) (err : option error) (sr' : StreamReader) : Prop :=
  err <> Some EOF /\ (io.weight (reader sr') <= io.weight (reader sr))%nat.

Definition consumes (sr : StreamReader) (err : option error) (sr' : StreamReader) : Prop :=
  steps sr err sr' /\
  (err = None -> (io.weight (reader sr') < io.weight (reader sr))%nat).

(** The same for the result of [Skip] and its helpers, when there is one. *)
Definition skipSteps (sr : StreamReader) (r : option (option error * StreamReader)) : Prop :=
  match r with
  | Some (err, sr') => steps sr err sr'
  | None => True
  end.

Definition skipConsumes (sr : StreamReader) (r : option (option error * StreamReader)) : Prop :=
  match r with
  | Some (err, sr') => consumes sr err sr'
  | None => True
  end.

(** A bound that is enough for [Skip] on the reader [sr]: every call and
    every loop round but the last takes input. *)
Definition skipFuel (sr : StreamReader) : nat := 3 * io.weight (reader sr) + 2.

(** The range of [i32]. *)
Definition isInt32 (v : Z) : bool := (- 2 ^ 31 <=? v) && (v <? 2 ^ 31).

(** The values of the items of an enum in the words of the spec, in
    unbounded integers: an explicit value as it is, otherwise the value
    before plus one, and 0 for a first item. *)
Fixpoint specValues (prev : option Z) (items : list ast.EnumItem) : list Z :=
  match items with
  | [] => []
  | a :: rest =>
      let value :=
        match ast.ItemValue a, prev with
        | Some v, _ => v
        | None, Some p => p + 1
        | None, None => 0
        end in
      value :: specValues (Some value) rest
  end.

(** The value the compiler owes the item at index [i] of [items], given the
    values [out] it gave to the items before and the value [prev] that came
    before the first of [items], if any: an explicit value as it is, else the
    value before plus one, else 0. *)
Definition owedValue (prev : option Z) (items : list ast.EnumItem)
           (out : list compile.EnumItem) (i : nat) : option Z :=
  match nth_error items i with
  | None => None
  | Some a =>
      match ast.ItemValue a with
      | Some v => Some v
      | None =>
          match i with
          | O => Some (match prev with Some p => p + 1 | None => 0 end)
          | S j =>
              match nth_error out j with
              | Some p => Some (compile.ItemValue p + 1)
              | None => None
              end
          end
      end
  end.

(** ** The shape of an encoded value

    [Value t bs] says that the bytes [bs] have the shape of one value of the
    wire type [t] in the binary protocol, as the reader takes it apart: a
    fixed-width scalar is [fixedWidth t] bytes; a binary value is a length
    and that many bytes; a struct is a sequence of fields, each a type byte
    other than 0, two bytes of id and a value of that type, closed by the
    stop byte; a map, a set and a list are a header and as many pairs or
    elements as the header says.  The scalars themselves are not looked at. *)
Inductive Value : wire.Type_ -> list byte -> Prop :=
| Value_fixed (t : wire.Type_) (bs : list byte) :
    fixedWidth t > 0 ->
    Z.of_nat (length bs) = fixedWidth t ->
    Value t bs
| Value_binary (l3 l2 l1 l0 : byte) (payload : list byte) :
    Z.of_nat (length payload) = int32 (bigEndian.Uint32 [l3; l2; l1; l0]) ->
    Value wire.TBinary ([l3; l2; l1; l0] ++ payload)
| Value_struct (bs : list byte) :
    Fields bs ->
    Value wire.TStruct bs
| Value_map (kb vb l3 l2 l1 l0 : byte) (n : nat) (bs : list byte) :
    Z.of_nat n = int32 (bigEndian.Uint32 [l3; l2; l1; l0]) ->
    Pairs (int8 (u8 kb)) (int8 (u8 vb)) n bs ->
    Value wire.TMap ([kb; vb; l3; l2; l1; l0] ++ bs)
| Value_set (tb l3 l2 l1 l0 : byte) (n : nat) (bs : list byte) :
    Z.of_nat n = int32 (bigEndian.Uint32 [l3; l2; l1; l0]) ->
    Elems (int8 (u8 tb)) n bs ->
    Value wire.TSet ([tb; l3; l2; l1; l0] ++ bs)
| Value_list (tb l3 l2 l1 l0 : byte) (n : nat) (bs : list byte) :
    Z.of_nat n = int32 (bigEndian.Uint32 [l3; l2; l1; l0]) ->
    Elems (int8 (u8 tb)) n bs ->
    Value wire.TList ([tb; l3; l2; l1; l0] ++ bs)

with Fields : list byte -> Prop :=
| Fields_stop : Fields [x00]
| Fields_cons (tb i1 i0 : byte) (v rest : list byte) :
    tb <> x00 ->
    Value (int8 (u8 tb)) v ->
    Fields rest ->
    Fields ([tb; i1; i0] ++ v ++ rest)

with Elems : wire.Type_ -> nat -> list byte -> Prop :=
| Elems_nil (t : wire.Type_) : Elems t O []
| Elems_cons (t : wire.Type_) (n : nat) (v rest : list byte) :
    Value t v ->
    Elems t n rest ->
    Elems t (S n) (v ++ rest)

with Pairs : wire.Type_ -> wire.Type_ -> nat -> list byte -> Prop :=
| Pairs_nil (k v : wire.Type_) : Pairs k v O []
| Pairs_cons (k v : wire.Type_) (n : nat) (kbs vbs rest : list byte) :
    Value k kbs ->
    Value v vbs ->
    Pairs k v n rest ->
    Pairs k v (S n) (kbs ++ vbs ++ rest).

Scheme Value_mind := Minimality for Value Sort Prop
  with Fields_mind := Minimality for Fields Sort Prop
  with Elems_mind := Minimality for Elems Sort Prop
  with Pairs_mind := Minimality for Pairs Sort Prop.

Combined Scheme Value_mutind from Value_mind, Fields_mind, Elems_mind, Pairs_mind.

(** A reader whose source holds the bytes [bs] in the chunk at hand, then
    [rest]. *)
Definition holding (bs : list byte) (rest : io.Reader) (buf : array8) : StreamReader :=
  {| reader := io.unread bs rest; buffer := buf |}.

(** With a large enough bound, [run] takes exactly the bytes [bs] from the
    chunk at hand and returns no error, whatever follows them. *)
Definition skipsOver (run : nat -> StreamReader -> option (option error * StreamReader))
           (bs : list byte) : Prop :=
  exists f0 : nat,
    forall fuel : nat, (f0 <= fuel)%nat ->
    forall (c : list byte) (rest : io.Reader) (buf : array8),
    exists buf' : array8,
      run fuel (holding (bs ++ c) rest buf) = Some (None, holding c rest buf').

(** A call that took the reader from [sr] to [sr'] only moved forward: the
    bytes left are what was there without a front part [d]; [took] says
    besides that a call without error took at least one byte. *)
Definition passed (sr sr' : StreamReader) : Prop :=
  exists d : list byte, io.pending (reader sr) = d ++ io.pending (reader sr').

Definition took (sr : StreamReader) (err : option error) (sr' : StreamReader) : Prop :=
  exists d : list byte,
    io.pending (reader sr) = d ++ io.pending (reader sr') /\
    (err = None -> d <> []).

Definition skipPassed (sr : StreamReader) (r : option (option error * StreamReader)) : Prop :=
  match r with
  | Some (_, sr') => passed sr sr'
  | None => True
  end.

Definition skipTook (sr : StreamReader) (r : option (option error * StreamReader)) : Prop :=
  match r with
  | Some (err, sr') => took sr err sr'
  | None => True
  end.

(** The type codes [Skip] knows. *)
Definition knownTypes : list wire.Type_ :=
  [wire.TBool; wire.TI8; wire.TDouble; wire.TI16; wire.TI32; wire.TI64;
   wire.TBinary; wire.TStruct; wire.TMap; wire.TSet; wire.TList].

(** * Properties of the streaming reader *)

(** ** Bytes and the scratch array *)

Lemma u8_zero (b : byte) : (u8 b =? 0) = Byte.eqb b x00.
Proof. destruct b; reflexivity. Qed.

Lemma u8_one (b : byte) : (u8 b =? 1) = Byte.eqb b x01.
Proof. destruct b; reflexivity. Qed.

Lemma int8_zero (b : byte) : (int8 (u8 b) =? 0) = Byte.eqb b x00.
Proof. destruct b; reflexivity. Qed.

Lemma byte_eqb_eq (a b : byte) : Byte.eqb a b = true <-> a = b.
Proof.
  split.
  - apply Byte.byte_dec_bl.
  - apply Byte.byte_dec_lb.
Qed.

Lemma byte_eqb_neq (a b : byte) : Byte.eqb a b = false <-> a <> b.
Proof.
  rewrite <- byte_eqb_eq. destruct (Byte.eqb a b); split; congruence.
Qed.

Lemma elems_length (a : array8) : length (elems a) = 8%nat.
Proof. reflexivity. Qed.

Lemma scratch_length (a : array8) (k : nat) :
  (k <= 8)%nat -> length (firstn k (elems a)) = k.
Proof. intros Hk. rewrite length_firstn, elems_length. lia. Qed.

(** ** Reading from a chunk that holds enough bytes *)

Lemma Read_chunk (bs c : list byte) (rest : io.Reader) :
  io.Read (io.Data (bs ++ c) :: rest) (length bs) = (bs, None, io.unread c rest).
Proof.
  unfold io.Read. destruct c as [|x c].
  - rewrite app_nil_r, Nat.leb_refl. reflexivity.
  - replace (length (bs ++ x :: c) <=? length bs)%nat with false.
    + rewrite firstn_app, firstn_all, Nat.sub_diag, app_nil_r.
      rewrite skipn_app, skipn_all, Nat.sub_diag. reflexivity.
    + symmetry. apply Nat.leb_gt. rewrite length_app. simpl. lia.
Qed.

Lemma read_chunk (bs c p : list byte) (rest : io.Reader) (buf : array8) :
  length p = length bs ->
  read {| reader := io.Data (bs ++ c) :: rest; buffer := buf |} p
  = (length bs, None, bs, {| reader := io.unread c rest; buffer := buf |}).
Proof.
  intros Hp. unfold read. cbn [reader]. rewrite Hp, Read_chunk.
  cbn [isEOF orb]. rewrite Nat.ltb_irrefl.
  rewrite <- Hp, skipn_all, app_nil_r. reflexivity.
Qed.

Lemma readBuffer_chunk (k : nat) (bs c : list byte) (rest : io.Reader) (buf : array8) :
  length bs = k -> (k <= 8)%nat ->
  readBuffer {| reader := io.Data (bs ++ c) :: rest; buffer := buf |} k
  = (bs, None, {| reader := io.unread c rest; buffer := store bs buf |}).
Proof.
  intros Hk Hle. unfold readBuffer. cbn [buffer].
  rewrite read_chunk by (rewrite scratch_length; lia).
  reflexivity.
Qed.

Lemma ReadInt8_chunk (b : byte) (c : list byte) (rest : io.Reader) (buf : array8) :
  ReadInt8 {| reader := io.Data (b :: c) :: rest; buffer := buf |}
  = (int8 (u8 b), None, {| reader := io.unread c rest; buffer := store [b] buf |}).
Proof.
  unfold ReadInt8.
  pose proof (readBuffer_chunk (k := 1) [b] c rest buf eq_refl) as H.
  cbn [app] in H. rewrite H by lia.
  reflexivity.
Qed.

Lemma ReadInt16_chunk (b1 b0 : byte) (c : list byte) (rest : io.Reader) (buf : array8) :
  ReadInt16 {| reader := io.Data (b1 :: b0 :: c) :: rest; buffer := buf |}
  = (int16 (bigEndian.Uint16 [b1; b0]), None,
     {| reader := io.unread c rest; buffer := store [b1; b0] buf |}).
Proof.
  unfold ReadInt16.
  pose proof (readBuffer_chunk (k := 2) [b1; b0] c rest buf eq_refl) as H.
  cbn [app] in H. rewrite H by lia.
  reflexivity.
Qed.

Lemma ReadInt32_chunk (b3 b2 b1 b0 : byte) (c : list byte) (rest : io.Reader)
      (buf : array8) :
  ReadInt32 {| reader := io.Data (b3 :: b2 :: b1 :: b0 :: c) :: rest; buffer := buf |}
  = (int32 (bigEndian.Uint32 [b3; b2; b1; b0]), None,
     {| reader := io.unread c rest; buffer := store [b3; b2; b1; b0] buf |}).
Proof.
  unfold ReadInt32.
  pose proof (readBuffer_chunk (k := 4) [b3; b2; b1; b0] c rest buf eq_refl) as H.
  cbn [app] in H. rewrite H by lia.
  reflexivity.
Qed.

(** The same readers on a source given by [io.unread]: after a read the
    source is in that form. *)
Lemma unread_cons (b : byte) (c : list byte) (rest : io.Reader) :
  io.unread (b :: c) rest = io.Data (b :: c) :: rest.
Proof. reflexivity. Qed.

(** At the end of the source every read of the scratch array fails with
    [ErrUnexpectedEOF]. *)
Lemma readBuffer_end (k : nat) (buf : array8) :
  snd (fst (readBuffer {| reader := []; buffer := buf |} k)) = Some ErrUnexpectedEOF.
Proof. reflexivity. Qed.

(** ** Booleans *)

(** C2: [ReadBool] takes the next byte of the stream; it returns [false] for
    [0x00] and [true] for [0x01], and for every other byte it fails with the
    invalid-bool error that carries the byte.  In each case exactly that byte
    is consumed. *)
Theorem ReadBool_strict (c : list byte) (rest : io.Reader) (buf : array8) :
  let sr b := {| reader := io.Data (b :: c) :: rest; buffer := buf |} in
  let sr' b := {| reader := io.unread c rest; buffer := store [b] buf |} in
  ReadBool (sr x00) = (false, None, sr' x00) /\
  ReadBool (sr x01) = (true, None, sr' x01) /\
  (forall b : byte, b <> x00 -> b <> x01 ->
     ReadBool (sr b) = (false, Some (ErrInvalidBool b), sr' b)).
Proof.
  intros sr sr'. unfold sr, sr', ReadBool.
  repeat split.
  - pose proof (readBuffer_chunk (k := 1) [x00] c rest buf eq_refl) as H.
    cbn [app] in H. rewrite H by lia. reflexivity.
  - pose proof (readBuffer_chunk (k := 1) [x01] c rest buf eq_refl) as H.
    cbn [app] in H. rewrite H by lia. reflexivity.
  - intros b H0 H1.
    pose proof (readBuffer_chunk (k := 1) [b] c rest buf eq_refl) as H.
    cbn [app] in H. rewrite H by lia.
    unfold idx. cbn [nth]. rewrite u8_zero, u8_one.
    apply byte_eqb_neq in H0, H1. rewrite H0, H1. reflexivity.
Qed.

Lemma ReadBool_strict_witness :
  ReadBool (NewStreamReader [io.Data [x02; x01]])
  = (false, Some (ErrInvalidBool x02),
     {| reader := [io.Data [x01]];
        buffer := Array8 x02 x00 x00 x00 x00 x00 x00 x00 |}).
Proof.
  apply (proj2 (proj2 (ReadBool_strict [x01] []
                         (Array8 x00 x00 x00 x00 x00 x00 x00 x00))) x02);
    discriminate.
Defined.

(** ** Structs and fields *)

(** C4: [ReadStructBegin] leaves the reader as it is and returns no error.
    [ReadStructEnd] consumes exactly one byte; it returns no error when the
    byte is 0 and the invalid-stop-field error otherwise, so it succeeds if
    and only if the byte is 0. *)
Theorem ReadStructEnd_stop (c : list byte) (rest : io.Reader) (buf : array8) :
  let sr b := {| reader := io.Data (b :: c) :: rest; buffer := buf |} in
  let sr' b := {| reader := io.unread c rest; buffer := store [b] buf |} in
  (forall s : StreamReader, ReadStructBegin s = (None, s)) /\
  ReadStructEnd (sr x00) = (None, sr' x00) /\
  (forall b : byte, b <> x00 ->
     ReadStructEnd (sr b) = (Some (ErrInvalidStopField (int8 (u8 b))), sr' b)) /\
  (forall b : byte, fst (ReadStructEnd (sr b)) = None <-> b = x00).
Proof.
  intros sr sr'.
  assert (Hne : forall b : byte, b <> x00 ->
            ReadStructEnd (sr b)
            = (Some (ErrInvalidStopField (int8 (u8 b))), sr' b)).
  { intros b Hb. unfold sr, sr', ReadStructEnd. rewrite ReadInt8_chunk.
    rewrite int8_zero. apply byte_eqb_neq in Hb. rewrite Hb. reflexivity. }
  assert (H0 : ReadStructEnd (sr x00) = (None, sr' x00)).
  { unfold sr, sr', ReadStructEnd. rewrite ReadInt8_chunk. reflexivity. }
  repeat split; auto.
  - intros Hnone. destruct (Byte.eqb b x00) eqn:E.
    + now apply byte_eqb_eq.
    + apply byte_eqb_neq in E. rewrite (Hne b E) in Hnone. discriminate.
  - intros ->. rewrite H0. reflexivity.
Qed.

Lemma ReadStructEnd_stop_witness :
  ReadStructEnd (NewStreamReader [io.Data [x0c]])
  = (Some (ErrInvalidStopField 12),
     {| reader := []; buffer := Array8 x0c x00 x00 x00 x00 x00 x00 x00 |}).
Proof.
  apply (proj1 (proj2 (proj2 (ReadStructEnd_stop [] []
                                (Array8 x00 x00 x00 x00 x00 x00 x00 x00)))) x0c).
  discriminate.
Defined.

(** At the end of the stream [ReadStructEnd] fails as every read does. *)
Lemma ReadStructEnd_end (buf : array8) :
  fst (ReadStructEnd {| reader := []; buffer := buf |}) = Some ErrUnexpectedEOF.
Proof. reflexivity. Qed.

(** On a chunk that holds three bytes, [ReadFieldBegin] reads a type byte
    and the two bytes after it whatever the type byte is, and returns the
    header made of them, [true] and no error; on every reader it returns
    [false] exactly when it returns an error. *)
Lemma ReadFieldBegin_header (t i1 i0 : byte) (c : list byte) (rest : io.Reader)
      (buf : array8) :
  ReadFieldBegin {| reader := io.Data (t :: i1 :: i0 :: c) :: rest; buffer := buf |}
  = ({| stream.ID := int16 (bigEndian.Uint16 [i1; i0]);
        stream.Type_ := int8 (u8 t) |},
     true, None,
     {| reader := io.unread c rest; buffer := store [i1; i0] (store [t] buf) |})
  /\
  (forall s : StreamReader,
     let '(_, more, err, _) := ReadFieldBegin s in
     more = false <-> err <> None).
Proof.
  split.
  - unfold ReadFieldBegin. rewrite ReadInt8_chunk, unread_cons, ReadInt16_chunk.
    reflexivity.
  - intros s. unfold ReadFieldBegin.
    destruct (ReadInt8 s) as [[ft [e|]] s1].
    + split; [discriminate | reflexivity].
    + destruct (ReadInt16 s1) as [[id [e|]] s2].
      * split; [discriminate | reflexivity].
      * split; [discriminate | intros H; now elim H].
Qed.

(** C1: [ReadFieldBegin] does not stop at the stop byte.  On the stream
    [00 01 02 03], whose first byte is the stop byte, it consumes the two
    bytes after it as a field id and returns [more = true]; on the stream
    that holds the stop byte alone it returns [ErrUnexpectedEOF].  So the
    struct [{1: i32 = 7, 2: string = "hi"}], read field by field, ends in
    [ErrUnexpectedEOF] at the third [ReadFieldBegin], where the claim has
    [more = false] and no error; [Skip] of the [STRUCT] type, which tests the
    type byte before it takes an id, passes over the same bytes. *)
Theorem ReadFieldBegin_stop_byte :
  ReadFieldBegin (NewStreamReader [io.Data [x00; x01; x02; x03]])
  = ({| stream.ID := 258; stream.Type_ := 0 |}, true, None,
     {| reader := [io.Data [x03]];
        buffer := Array8 x01 x02 x00 x00 x00 x00 x00 x00 |})
  /\
  ReadFieldBegin (NewStreamReader [io.Data [x00]])
  = (fh0, false, Some ErrUnexpectedEOF, NewStreamReader [])
  /\
  (let sr0 := NewStreamReader
                [io.Data [x08; x00; x01; x00; x00; x00; x07;
                          x0b; x00; x02; x00; x00; x00; x02; x68; x69;
                          x00]] in
   let '(fh1, more1, err1, sr1) := ReadFieldBegin sr0 in
   let '(v1, errv1, sr2) := ReadInt32 sr1 in
   let '(fh2, more2, err2, sr3) := ReadFieldBegin sr2 in
   let '(v2, errv2, sr4) := ReadBinary 1048576 sr3 in
   let '(fh3, more3, err3, sr5) := ReadFieldBegin sr4 in
   (fh1, more1, err1) = ({| stream.ID := 1; stream.Type_ := wire.TI32 |}, true, None) /\
   (v1, errv1) = (7, None) /\
   (fh2, more2, err2) = ({| stream.ID := 2; stream.Type_ := wire.TBinary |}, true, None) /\
   (v2, errv2) = (Some [x68; x69], None) /\
   reader sr4 = [io.Data [x00]] /\
   (fh3, more3, err3) = (fh0, false, Some ErrUnexpectedEOF) /\
   reader sr5 = [] /\
   exists sr', Skip 5 wire.TStruct sr0 = Some (None, sr') /\ reader sr' = []).
Proof.
  split; [reflexivity|]. split; [reflexivity|].
  vm_compute. repeat split. eexists. split; reflexivity.
Qed.

(** ** Binary values *)

(** C9: on a stream whose next four bytes are the length 0, [ReadBinary]
    returns the empty slice, which is not nil, and no error, and consumes
    these four bytes only. *)
Theorem ReadBinary_empty (threshold : Z) (c : list byte) (rest : io.Reader)
        (buf : array8) :
  ReadBinary threshold
    {| reader := io.Data (x00 :: x00 :: x00 :: x00 :: c) :: rest; buffer := buf |}
  = (Some [], None,
     {| reader := io.unread c rest; buffer := store [x00; x00; x00; x00] buf |}).
Proof.
  unfold ReadBinary. rewrite ReadInt32_chunk. reflexivity.
Qed.

(** ** Discarding *)

Lemma CopyN_nonpositive (src : io.Reader) (n : Z) :
  n <= 0 -> io.CopyN src n = ([], None, src).
Proof.
  intros Hn. apply Z.leb_le in Hn.
  destruct src as [|[d|e] src]; cbn [io.CopyN]; rewrite Hn; reflexivity.
Qed.

Lemma CopyN_positive_unfold (src : io.Reader) (n : Z) :
  0 < n ->
  io.CopyN src n =
    match src with
    | [] => ([], Some EOF, [])
    | io.Fault e :: rest => ([], Some e, rest)
    | io.Data c :: rest =>
        if Z.of_nat (length c) <=? n then
          let '(w, err, r) := io.CopyN rest (n - Z.of_nat (length c)) in
          (c ++ w, err, r)
        else
          (firstn (Z.to_nat n) c, None, io.Data (skipn (Z.to_nat n) c) :: rest)
    end.
Proof.
  intros Hn. assert (E : (n <=? 0) = false) by (apply Z.leb_gt; lia).
  destruct src as [|[d|e] src]; cbn [io.CopyN]; rewrite E; reflexivity.
Qed.

(** Copying as many bytes as the front of the source holds takes these bytes
    and leaves the rest. *)
Lemma CopyN_exact (p c : list byte) (rest : io.Reader) :
  io.CopyN (io.unread (p ++ c) rest) (Z.of_nat (length p))
  = (p, None, io.unread c rest).
Proof.
  destruct p as [|b p].
  - cbn [app length Z.of_nat]. apply CopyN_nonpositive. lia.
  - cbn [app io.unread]. rewrite CopyN_positive_unfold by (cbn [length]; lia).
    destruct c as [|x c].
    + rewrite app_nil_r.
      rewrite Z.leb_refl, Z.sub_diag.
      rewrite CopyN_nonpositive by lia. rewrite app_nil_r. reflexivity.
    + replace (Z.of_nat (length (b :: p ++ x :: c)) <=? Z.of_nat (length (b :: p)))
        with false.
      * rewrite Nat2Z.id.
        change (b :: p ++ x :: c) with ((b :: p) ++ x :: c).
        rewrite firstn_app, firstn_all, Nat.sub_diag, app_nil_r.
        rewrite skipn_app, skipn_all, Nat.sub_diag. reflexivity.
      * symmetry. apply Z.leb_gt. cbn [length]. rewrite length_app. cbn [length]. lia.
Qed.

Lemma discard_exact (n : Z) (p c : list byte) (rest : io.Reader) (buf : array8) :
  Z.of_nat (length p) = n ->
  discard {| reader := io.unread (p ++ c) rest; buffer := buf |} n
  = (None, {| reader := io.unread c rest; buffer := buf |}).
Proof.
  intros <-. unfold discard. cbn [reader]. rewrite CopyN_exact. reflexivity.
Qed.

(** ** Negative lengths *)

(** C3: when the four length bytes of a binary value or of a list, set or
    map header give a negative [int32], each of [ReadBinary],
    [ReadListBegin], [ReadSetBegin], [ReadMapBegin] and [Skip] of the
    [BINARY], [LIST], [SET] and [MAP] types fails with an invalid-length
    error that carries the length, having consumed the header only: nothing
    of what follows the header is read. *)
Theorem negative_length_rejected
        (b3 b2 b1 b0 t k v : byte) (c : list byte) (rest : io.Reader)
        (buf : array8) (threshold : Z) (fuel : nat) :
  let len := [b3; b2; b1; b0] in
  let n := int32 (bigEndian.Uint32 len) in
  let src hdr := {| reader := io.Data (hdr ++ len ++ c) :: rest; buffer := buf |} in
  let out b := {| reader := io.unread c rest; buffer := store len b |} in
  n < 0 ->
  isInvalidLength (ErrNegativeBinaryLength n) = true /\
  isInvalidLength (ErrNegativeLength n) = true /\
  ReadBinary threshold (src [])
    = (None, Some (ErrNegativeBinaryLength n), out buf) /\
  ReadListBegin (src [t])
    = (lh0, Some (ErrNegativeLength n), out (store [t] buf)) /\
  ReadSetBegin (src [t])
    = (sh0, Some (ErrNegativeLength n), out (store [t] buf)) /\
  ReadMapBegin (src [k; v])
    = (mh0, Some (ErrNegativeLength n), out (store [v] (store [k] buf))) /\
  Skip (S fuel) wire.TBinary (src [])
    = Some (Some (ErrNegativeLength n), out buf) /\
  Skip (S (S fuel)) wire.TList (src [t])
    = Some (Some (ErrNegativeLength n), out (store [t] buf)) /\
  Skip (S (S fuel)) wire.TSet (src [t])
    = Some (Some (ErrNegativeLength n), out (store [t] buf)) /\
  Skip (S (S fuel)) wire.TMap (src [k; v])
    = Some (Some (ErrNegativeLength n), out (store [v] (store [k] buf))).
Proof.
  intros len n src out Hn.
  assert (Hlt : (n <? 0) = true) by (apply Z.ltb_lt; exact Hn).
  assert (Hhdr : readTypeSizeHeader (src [t])
                 = (0, 0, Some (ErrNegativeLength n), out (store [t] buf))).
  { unfold readTypeSizeHeader, src, len. cbn [app].
    rewrite ReadInt8_chunk, unread_cons, ReadInt32_chunk.
    fold len. fold n. rewrite Hlt. reflexivity. }
  assert (Hlist : skipList (S fuel) (src [t])
                  = Some (Some (ErrNegativeLength n), out (store [t] buf))).
  { cbn [skipList]. rewrite Hhdr. reflexivity. }
  repeat split.
  - unfold ReadBinary, src, len. cbn [app]. rewrite ReadInt32_chunk.
    fold len. fold n. rewrite Hlt. reflexivity.
  - unfold ReadListBegin. rewrite Hhdr. reflexivity.
  - unfold ReadSetBegin. rewrite Hhdr. reflexivity.
  - unfold ReadMapBegin, src, len. cbn [app].
    rewrite ReadInt8_chunk, unread_cons, ReadInt8_chunk, unread_cons, ReadInt32_chunk.
    fold len. fold n. rewrite Hlt. reflexivity.
  - change (Skip (S fuel) wire.TBinary (src []))
      with (let '(length, err, sr) := ReadInt32 (src []) in
            match err with
            | Some e => Some (Some e, sr)
            | None =>
                if length <? 0 then Some (Some (ErrNegativeLength length), sr)
                else Some (discard sr length)
            end).
    unfold src, len. cbn [app]. rewrite ReadInt32_chunk.
    fold len. fold n. rewrite Hlt. reflexivity.
  - exact Hlist.
  - exact Hlist.
  - change (Skip (S (S fuel)) wire.TMap (src [k; v]))
      with (skipMap (S fuel) (src [k; v])).
    cbn [skipMap]. unfold src, len. cbn [app].
    rewrite ReadInt8_chunk, unread_cons, ReadInt8_chunk, unread_cons, ReadInt32_chunk.
    fold len. fold n. rewrite Hlt. reflexivity.
Qed.

Lemma negative_length_rejected_witness :
  Skip 2 wire.TList (NewStreamReader [io.Data [x08; xff; xff; xff; xff; x2a]])
  = Some (Some (ErrNegativeLength (-1)),
          {| reader := [io.Data [x2a]];
             buffer := Array8 xff xff xff xff x00 x00 x00 x00 |}).
Proof.
  pose proof (negative_length_rejected xff xff xff xff x08 x08 x08 [x2a] []
                (Array8 x00 x00 x00 x00 x00 x00 x00 x00) 0 0) as H.
  cbv zeta in H. apply H.
  reflexivity.
Defined.

(** ** Skipping maps of fixed-width keys and values *)

(** C5: when the key and value types of a map header are both fixed-width
    and its length [n] is not negative, [Skip] of the [MAP] type consumes the
    6 bytes of the header and the [n * (fixedWidth K + fixedWidth V)] bytes
    after it, and returns no error.  For a map from [I32] to [I32] of length
    3 these are 6 + 24 = 30 bytes. *)
Theorem skipMap_fixed_width (c : list byte) (rest : io.Reader) (buf : array8)
        (fuel : nat) :
  let src bs := {| reader := io.Data (bs ++ c) :: rest; buffer := buf |} in
  let out len kb vb :=
    {| reader := io.unread c rest;
       buffer := store len (store [vb] (store [kb] buf)) |} in
  (forall (kb vb l3 l2 l1 l0 : byte) (payload : list byte),
     let K := int8 (u8 kb) in
     let V := int8 (u8 vb) in
     let n := int32 (bigEndian.Uint32 [l3; l2; l1; l0]) in
     fixedWidth K > 0 -> fixedWidth V > 0 -> 0 <= n ->
     Z.of_nat (length payload) = n * (fixedWidth K + fixedWidth V) ->
     Skip (S (S fuel)) wire.TMap (src ([kb; vb; l3; l2; l1; l0] ++ payload))
     = Some (None, out [l3; l2; l1; l0] kb vb))
  /\
  (forall payload : list byte,
     length payload = 24%nat ->
     length ([x08; x08; x00; x00; x00; x03] ++ payload) = 30%nat /\
     Skip (S (S fuel)) wire.TMap (src ([x08; x08; x00; x00; x00; x03] ++ payload))
     = Some (None, out [x00; x00; x00; x03] x08 x08)).
Proof.
  intros src out.
  assert (G : forall (kb vb l3 l2 l1 l0 : byte) (payload : list byte),
     let K := int8 (u8 kb) in
     let V := int8 (u8 vb) in
     let n := int32 (bigEndian.Uint32 [l3; l2; l1; l0]) in
     fixedWidth K > 0 -> fixedWidth V > 0 -> 0 <= n ->
     Z.of_nat (length payload) = n * (fixedWidth K + fixedWidth V) ->
     Skip (S (S fuel)) wire.TMap (src ([kb; vb; l3; l2; l1; l0] ++ payload))
     = Some (None, out [l3; l2; l1; l0] kb vb)).
  { intros kb vb l3 l2 l1 l0 payload K V n HK HV Hn Hlen.
    change (Skip (S (S fuel)) wire.TMap (src ([kb; vb; l3; l2; l1; l0] ++ payload)))
      with (skipMap (S fuel) (src ([kb; vb; l3; l2; l1; l0] ++ payload))).
    cbn [skipMap]. unfold src. cbn [app].
    rewrite ReadInt8_chunk, unread_cons, ReadInt8_chunk, unread_cons, ReadInt32_chunk.
    fold K. fold V. fold n.
    replace (n <? 0) with false by (symmetry; apply Z.ltb_ge; exact Hn).
    replace (fixedWidth K >? 0) with true by (symmetry; apply Z.gtb_lt; lia).
    replace (fixedWidth V >? 0) with true by (symmetry; apply Z.gtb_lt; lia).
    cbn [andb]. rewrite (discard_exact payload c rest _ Hlen). reflexivity. }
  split; [exact G|].
  intros payload Hlen. split.
  - rewrite length_app, Hlen. reflexivity.
  - apply G.
    + reflexivity.
    + reflexivity.
    + discriminate.
    + rewrite Hlen. reflexivity.
Qed.

Lemma skipMap_fixed_width_witness :
  Skip 2 wire.TMap
    (NewStreamReader
       [io.Data ([x08; x08; x00; x00; x00; x03] ++ repeat xaa 24 ++ [x0b; x0c])])
  = Some (None,
          {| reader := [io.Data [x0b; x0c]];
             buffer := Array8 x00 x00 x00 x03 x00 x00 x00 x00 |}).
Proof.
  pose proof (skipMap_fixed_width [x0b; x0c] []
                (Array8 x00 x00 x00 x00 x00 x00 x00 x00) 0) as H.
  cbv zeta in H. destruct H as [_ H].
  specialize (H (repeat xaa 24) eq_refl). destruct H as [_ H].
  rewrite <- app_assoc in H. exact H.
Defined.

(** ** End of input *)

Ltac crush :=
  unfold consumes, steps in *; cbn [reader withReader] in *;
  intuition (try congruence; try lia).

Lemma Read_weight (r : io.Reader) (n : nat) :
  let '(_, err, r') := io.Read r n in
  (io.weight r' <= io.weight r)%nat /\
  (err = None -> (0 < n)%nat -> (io.weight r' < io.weight r)%nat).
Proof.
  destruct r as [|[c|e] rest]; cbn [io.Read].
  - split; [lia | discriminate].
  - destruct (length c <=? n)%nat eqn:E; cbn [io.weight].
    + split; intros; lia.
    + apply Nat.leb_gt in E. rewrite length_skipn. split; intros; lia.
  - cbn [io.weight]. split; [lia | discriminate].
Qed.

Lemma read_consumes (sr : StreamReader) (bs : list byte) :
  (0 < length bs)%nat ->
  let '(_, err, _, sr') := read sr bs in consumes sr err sr'.
Proof.
  intros Hbs. unfold read.
  pose proof (Read_weight (reader sr) (length bs)) as H.
  destruct (io.Read (reader sr) (length bs)) as [[data err] r].
  destruct H as [Hle Hlt].
  destruct (isEOF err || (length data <? length bs)%nat) eqn:E.
  - crush.
  - apply orb_false_elim in E. destruct E as [E _].
    destruct err as [[]|]; try discriminate E; crush.
Qed.

Lemma readBuffer_consumes (sr : StreamReader) (k : nat) :
  (0 < k <= 8)%nat ->
  let '(_, err, sr') := readBuffer sr k in consumes sr err sr'.
Proof.
  intros Hk. unfold readBuffer.
  pose proof (read_consumes sr (firstn k (elems (buffer sr)))) as H.
  rewrite scratch_length in H by lia. specialize (H (proj1 Hk)).
  destruct (read sr (firstn k (elems (buffer sr)))) as [[[n err] bs] sr'].
  crush.
Qed.

Lemma CopyN_weight (src : io.Reader) :
  forall n : Z,
    let '(_, err, r) := io.CopyN src n in
    (io.weight r <= io.weight src)%nat /\
    (err = None -> 0 < n -> (io.weight r < io.weight src)%nat).
Proof.
  induction src as [|[c|e] rest IH]; intros n.
  - destruct (Z_le_gt_dec n 0) as [Hn|Hn].
    + rewrite CopyN_nonpositive by exact Hn. split; intros; lia.
    + rewrite CopyN_positive_unfold by lia. split; [lia | discriminate].
  - destruct (Z_le_gt_dec n 0) as [Hn|Hn].
    + rewrite CopyN_nonpositive by exact Hn. split; intros; lia.
    + rewrite CopyN_positive_unfold by lia.
      destruct (Z.of_nat (length c) <=? n) eqn:E.
      * specialize (IH (n - Z.of_nat (length c))).
        destruct (io.CopyN rest (n - Z.of_nat (length c))) as [[w err] r].
        cbn [io.weight]. split; intros; lia.
      * apply Z.leb_gt in E. cbn [io.weight]. rewrite length_skipn.
        split; intros; lia.
  - destruct (Z_le_gt_dec n 0) as [Hn|Hn].
    + rewrite CopyN_nonpositive by exact Hn. split; intros; lia.
    + rewrite CopyN_positive_unfold by lia. cbn [io.weight].
      split; [lia | discriminate].
Qed.

Lemma discard_steps (sr : StreamReader) (n : Z) :
  let '(err, sr') := discard sr n in
  steps sr err sr' /\ (0 < n -> consumes sr err sr').
Proof.
  unfold discard. pose proof (CopyN_weight (reader sr) n) as H.
  destruct (io.CopyN (reader sr) n) as [[w err] r].
  destruct err as [[]|]; cbn [isEOF]; crush.
Qed.

(** A source that never fails and holds fewer than [n] bytes makes [CopyN]
    return [io.EOF]. *)
Lemma CopyN_short (src : io.Reader) :
  forall n : Z,
    io.faultless src = true ->
    Z.of_nat (length (io.pending src)) < n ->
    snd (fst (io.CopyN src n)) = Some EOF.
Proof.
  induction src as [|[c|e] rest IH]; intros n Hf Hn; cbn [io.pending io.faultless] in *.
  - rewrite CopyN_positive_unfold by (cbn [length] in Hn; lia). reflexivity.
  - rewrite length_app in Hn.
    rewrite CopyN_positive_unfold by lia.
    replace (Z.of_nat (length c) <=? n) with true by (symmetry; apply Z.leb_le; lia).
    specialize (IH (n - Z.of_nat (length c)) Hf).
    destruct (io.CopyN rest (n - Z.of_nat (length c))) as [[w err] r].
    cbn [fst snd] in *. apply IH. lia.
  - discriminate Hf.
Qed.

Lemma ReadInt8_consumes (sr : StreamReader) :
  let '(_, err, sr') := ReadInt8 sr in consumes sr err sr'.
Proof.
  unfold ReadInt8. pose proof (readBuffer_consumes sr (k := 1) ltac:(lia)) as H.
  destruct (readBuffer sr 1) as [[bs err] sr']. exact H.
Qed.

Lemma ReadInt16_consumes (sr : StreamReader) :
  let '(_, err, sr') := ReadInt16 sr in consumes sr err sr'.
Proof.
  unfold ReadInt16. pose proof (readBuffer_consumes sr (k := 2) ltac:(lia)) as H.
  destruct (readBuffer sr 2) as [[bs err] sr']. exact H.
Qed.

Lemma ReadInt32_consumes (sr : StreamReader) :
  let '(_, err, sr') := ReadInt32 sr in consumes sr err sr'.
Proof.
  unfold ReadInt32. pose proof (readBuffer_consumes sr (k := 4) ltac:(lia)) as H.
  destruct (readBuffer sr 4) as [[bs err] sr']. exact H.
Qed.

Lemma ReadInt64_consumes (sr : StreamReader) :
  let '(_, err, sr') := ReadInt64 sr in consumes sr err sr'.
Proof.
  unfold ReadInt64. pose proof (readBuffer_consumes sr (k := 8) ltac:(lia)) as H.
  destruct (readBuffer sr 8) as [[bs err] sr']. exact H.
Qed.

Lemma ReadBool_steps (sr : StreamReader) :
  let '(_, err, sr') := ReadBool sr in steps sr err sr'.
Proof.
  unfold ReadBool. pose proof (readBuffer_consumes sr (k := 1) ltac:(lia)) as H.
  destruct (readBuffer sr 1) as [[bs [e|]] sr']; [crush|].
  destruct (idx bs 0 =? 0); [crush|]. destruct (idx bs 0 =? 1); crush.
Qed.

Lemma ReadBinary_steps (threshold : Z) (sr : StreamReader) :
  let '(_, err, sr') := ReadBinary threshold sr in steps sr err sr'.
Proof.
  unfold ReadBinary. pose proof (ReadInt32_consumes sr) as H.
  destruct (ReadInt32 sr) as [[len [e|]] sr1]; [crush|].
  destruct (len <? 0) eqn:Eneg; [crush|].
  destruct (len =? 0) eqn:E0; [crush|].
  apply Z.ltb_ge in Eneg. apply Z.eqb_neq in E0.
  destruct (len >? threshold).
  - pose proof (CopyN_weight (reader sr1) len) as HC.
    destruct (io.CopyN (reader sr1) len) as [[w err] r].
    destruct err as [[]|]; cbn [isEOF]; crush.
  - assert (Hlen : (0 < length (repeat x00 (Z.to_nat len)))%nat)
      by (rewrite repeat_length; lia).
    pose proof (read_consumes sr1 (repeat x00 (Z.to_nat len)) Hlen) as HR.
    destruct (read sr1 (repeat x00 (Z.to_nat len))) as [[[n err] bs] sr2].
    crush.
Qed.

Lemma ReadStructEnd_steps (sr : StreamReader) :
  let '(err, sr') := ReadStructEnd sr in steps sr err sr'.
Proof.
  unfold ReadStructEnd. pose proof (ReadInt8_consumes sr) as H.
  destruct (ReadInt8 sr) as [[v [e|]] sr1]; [crush|].
  destruct (negb (v =? 0)); crush.
Qed.

Lemma ReadFieldBegin_steps (sr : StreamReader) :
  let '(_, _, err, sr') := ReadFieldBegin sr in steps sr err sr'.
Proof.
  unfold ReadFieldBegin. pose proof (ReadInt8_consumes sr) as H.
  destruct (ReadInt8 sr) as [[v [e|]] sr1]; [crush|].
  pose proof (ReadInt16_consumes sr1) as H1.
  destruct (ReadInt16 sr1) as [[v1 [e|]] sr2]; crush.
Qed.

Lemma readTypeSizeHeader_consumes (sr : StreamReader) :
  let '(_, _, err, sr') := readTypeSizeHeader sr in consumes sr err sr'.
Proof.
  unfold readTypeSizeHeader. pose proof (ReadInt8_consumes sr) as H.
  destruct (ReadInt8 sr) as [[v [e|]] sr1]; [crush|].
  pose proof (ReadInt32_consumes sr1) as H1.
  destruct (ReadInt32 sr1) as [[v1 [e|]] sr2]; [crush|].
  destruct (v1 <? 0); crush.
Qed.

Lemma ReadListBegin_steps (sr : StreamReader) :
  let '(_, err, sr') := ReadListBegin sr in steps sr err sr'.
Proof.
  unfold ReadListBegin. pose proof (readTypeSizeHeader_consumes sr) as H.
  destruct (readTypeSizeHeader sr) as [[[t n] [e|]] sr1]; crush.
Qed.

Lemma ReadSetBegin_steps (sr : StreamReader) :
  let '(_, err, sr') := ReadSetBegin sr in steps sr err sr'.
Proof.
  unfold ReadSetBegin. pose proof (readTypeSizeHeader_consumes sr) as H.
  destruct (readTypeSizeHeader sr) as [[[t n] [e|]] sr1]; crush.
Qed.

Lemma ReadMapBegin_steps (sr : StreamReader) :
  let '(_, err, sr') := ReadMapBegin sr in steps sr err sr'.
Proof.
  unfold ReadMapBegin. pose proof (ReadInt8_consumes sr) as H.
  destruct (ReadInt8 sr) as [[k [e|]] sr1]; [crush|].
  pose proof (ReadInt8_consumes sr1) as H1.
  destruct (ReadInt8 sr1) as [[v [e|]] sr2]; [crush|].
  pose proof (ReadInt32_consumes sr2) as H2.
  destruct (ReadInt32 sr2) as [[n [e|]] sr3]; [crush|].
  destruct (n <? 0); crush.
Qed.

(** ** Skip: what every result satisfies *)

Ltac crush_skip :=
  unfold skipConsumes, skipSteps in *; crush.

Lemma Skip_invariant (fuel : nat) :
  (forall t sr, skipConsumes sr (Skip fuel t sr)) /\
  (forall sr, skipConsumes sr (skipStruct fuel sr)) /\
  (forall fieldType sr, skipSteps sr (skipStructLoop fuel fieldType sr)) /\
  (forall sr, skipConsumes sr (skipMap fuel sr)) /\
  (forall i size key value sr, skipSteps sr (skipMapLoop fuel i size key value sr)) /\
  (forall sr, skipConsumes sr (skipList fuel sr)) /\
  (forall i size elemType sr, skipSteps sr (skipListLoop fuel i size elemType sr)).
Proof.
  induction fuel as [|fuel IH].
  - repeat split; intros; exact I.
  - destruct IH as (ISkip & IStruct & IStructLoop & IMap & IMapLoop & IList & IListLoop).
    repeat split.
    + (* Skip *)
      intros t sr. cbn [Skip].
      destruct (fixedWidth t >? 0) eqn:Ew.
      { apply Z.gtb_lt in Ew. pose proof (discard_steps sr (fixedWidth t)) as H.
        destruct (discard sr (fixedWidth t)) as [err sr']. crush_skip. }
      destruct (t =? wire.TBinary).
      { pose proof (ReadInt32_consumes sr) as H.
        destruct (ReadInt32 sr) as [[len [e|]] sr1]; [crush_skip|].
        destruct (len <? 0); [crush_skip|].
        pose proof (discard_steps sr1 len) as H1.
        destruct (discard sr1 len) as [err sr2]. crush_skip. }
      destruct (t =? wire.TStruct); [apply IStruct|].
      destruct (t =? wire.TMap); [apply IMap|].
      destruct (t =? wire.TSet); [apply IList|].
      destruct (t =? wire.TList); [apply IList|].
      crush_skip.
    + (* skipStruct *)
      intros sr. cbn [skipStruct].
      pose proof (ReadInt8_consumes sr) as H.
      destruct (ReadInt8 sr) as [[ft [e|]] sr1]; [crush_skip|].
      pose proof (IStructLoop ft sr1) as HL.
      destruct (skipStructLoop fuel ft sr1) as [[err sr2]|]; crush_skip.
    + (* skipStructLoop *)
      intros ft sr. cbn [skipStructLoop].
      destruct (negb (ft =? 0)); [|crush_skip].
      pose proof (discard_steps sr 2) as H.
      destruct (discard sr 2) as [[e|] sr1]; [crush_skip|].
      pose proof (ISkip ft sr1) as H1.
      destruct (Skip fuel ft sr1) as [[[e|] sr2]|]; [crush_skip| |exact I].
      pose proof (ReadInt8_consumes sr2) as H2.
      destruct (ReadInt8 sr2) as [[ft' [e|]] sr3]; [crush_skip|].
      pose proof (IStructLoop ft' sr3) as H3.
      destruct (skipStructLoop fuel ft' sr3) as [[err sr4]|]; crush_skip.
    + (* skipMap *)
      intros sr. cbn [skipMap].
      pose proof (ReadInt8_consumes sr) as H.
      destruct (ReadInt8 sr) as [[k [e|]] sr1]; [crush_skip|].
      pose proof (ReadInt8_consumes sr1) as H1.
      destruct (ReadInt8 sr1) as [[v [e|]] sr2]; [crush_skip|].
      pose proof (ReadInt32_consumes sr2) as H2.
      destruct (ReadInt32 sr2) as [[n [e|]] sr3]; [crush_skip|].
      destruct (n <? 0); [crush_skip|].
      destruct ((fixedWidth k >? 0) && (fixedWidth v >? 0)).
      * pose proof (discard_steps sr3 (n * (fixedWidth k + fixedWidth v))) as H3.
        destruct (discard sr3 (n * (fixedWidth k + fixedWidth v))) as [err sr4].
        crush_skip.
      * pose proof (IMapLoop 0 n k v sr3) as H3.
        destruct (skipMapLoop fuel 0 n k v sr3) as [[err sr4]|]; crush_skip.
    + (* skipMapLoop *)
      intros i size k v sr. cbn [skipMapLoop].
      destruct (i <? size); [|crush_skip].
      pose proof (ISkip k sr) as H.
      destruct (Skip fuel k sr) as [[[e|] sr1]|]; [crush_skip| |exact I].
      pose proof (ISkip v sr1) as H1.
      destruct (Skip fuel v sr1) as [[[e|] sr2]|]; [crush_skip| |exact I].
      pose proof (IMapLoop (i + 1) size k v sr2) as H2.
      destruct (skipMapLoop fuel (i + 1) size k v sr2) as [[err sr3]|]; crush_skip.
    + (* skipList *)
      intros sr. cbn [skipList].
      pose proof (readTypeSizeHeader_consumes sr) as H.
      destruct (readTypeSizeHeader sr) as [[[t n] [e|]] sr1]; [crush_skip|].
      destruct (fixedWidth t >? 0).
      * pose proof (discard_steps sr1 (fixedWidth t * n)) as H1.
        destruct (discard sr1 (fixedWidth t * n)) as [err sr2]. crush_skip.
      * pose proof (IListLoop 0 n t sr1) as H1.
        destruct (skipListLoop fuel 0 n t sr1) as [[err sr2]|]; crush_skip.
    + (* skipListLoop *)
      intros i size t sr. cbn [skipListLoop].
      destruct (i <? size); [|crush_skip].
      pose proof (ISkip t sr) as H.
      destruct (Skip fuel t sr) as [[[e|] sr1]|]; [crush_skip| |exact I].
      pose proof (IListLoop (i + 1) size t sr1) as H1.
      destruct (skipListLoop fuel (i + 1) size t sr1) as [[err sr2]|]; crush_skip.
Qed.

(** ** Skip: termination *)

Ltac have_result :=
  match goal with
  | |- exists r, Some ?x = Some r => exists x; reflexivity
  end.

Lemma Skip_enough (fuel : nat) :
  (forall t sr, (skipFuel sr <= fuel)%nat -> exists r, Skip fuel t sr = Some r) /\
  (forall sr, (skipFuel sr <= S fuel)%nat -> exists r, skipStruct fuel sr = Some r) /\
  (forall fieldType sr, (S (skipFuel sr) <= fuel)%nat ->
     exists r, skipStructLoop fuel fieldType sr = Some r) /\
  (forall sr, (skipFuel sr <= S fuel)%nat -> exists r, skipMap fuel sr = Some r) /\
  (forall i size key value sr, (S (skipFuel sr) <= fuel)%nat ->
     exists r, skipMapLoop fuel i size key value sr = Some r) /\
  (forall sr, (skipFuel sr <= S fuel)%nat -> exists r, skipList fuel sr = Some r) /\
  (forall i size elemType sr, (S (skipFuel sr) <= fuel)%nat ->
     exists r, skipListLoop fuel i size elemType sr = Some r).
Proof.
  unfold skipFuel.
  induction fuel as [|fuel IH].
  - repeat split; intros; lia.
  - destruct IH as (ISkip & IStruct & IStructLoop & IMap & IMapLoop & IList & IListLoop).
    destruct (Skip_invariant fuel) as (VSkip & _).
    repeat split.
    + (* Skip *)
      intros t sr Hf. cbn [Skip].
      destruct (fixedWidth t >? 0); [have_result|].
      destruct (t =? wire.TBinary).
      { destruct (ReadInt32 sr) as [[len [e|]] sr1]; [have_result|].
        destruct (len <? 0); have_result. }
      destruct (t =? wire.TStruct); [apply IStruct; lia|].
      destruct (t =? wire.TMap); [apply IMap; lia|].
      destruct (t =? wire.TSet); [apply IList; lia|].
      destruct (t =? wire.TList); [apply IList; lia|].
      have_result.
    + (* skipStruct *)
      intros sr Hf. cbn [skipStruct].
      pose proof (ReadInt8_consumes sr) as H.
      destruct (ReadInt8 sr) as [[ft [e|]] sr1]; [have_result|].
      apply IStructLoop. crush.
    + (* skipStructLoop *)
      intros ft sr Hf. cbn [skipStructLoop].
      destruct (negb (ft =? 0)); [|have_result].
      pose proof (discard_steps sr 2) as H.
      destruct (discard sr 2) as [[e|] sr1]; [have_result|].
      destruct (ISkip ft sr1) as [[[e|] sr2] E]; [crush| |];
        pose proof (VSkip ft sr1) as H1; rewrite E in *; [have_result|].
      pose proof (ReadInt8_consumes sr2) as H2.
      destruct (ReadInt8 sr2) as [[ft' [e|]] sr3]; [have_result|].
      apply IStructLoop. crush_skip.
    + (* skipMap *)
      intros sr Hf. cbn [skipMap].
      pose proof (ReadInt8_consumes sr) as H.
      destruct (ReadInt8 sr) as [[k [e|]] sr1]; [have_result|].
      pose proof (ReadInt8_consumes sr1) as H1.
      destruct (ReadInt8 sr1) as [[v [e|]] sr2]; [have_result|].
      pose proof (ReadInt32_consumes sr2) as H2.
      destruct (ReadInt32 sr2) as [[n [e|]] sr3]; [have_result|].
      destruct (n <? 0); [have_result|].
      destruct ((fixedWidth k >? 0) && (fixedWidth v >? 0)); [have_result|].
      apply IMapLoop. crush.
    + (* skipMapLoop *)
      intros i size k v sr Hf. cbn [skipMapLoop].
      destruct (i <? size); [|have_result].
      destruct (ISkip k sr) as [[[e|] sr1] E]; [lia| |];
        pose proof (VSkip k sr) as H; rewrite E in *; [have_result|].
      destruct (ISkip v sr1) as [[[e|] sr2] E1]; [crush_skip| |];
        pose proof (VSkip v sr1) as H1; rewrite E1 in *; [have_result|].
      apply IMapLoop. crush_skip.
    + (* skipList *)
      intros sr Hf. cbn [skipList].
      pose proof (readTypeSizeHeader_consumes sr) as H.
      destruct (readTypeSizeHeader sr) as [[[t n] [e|]] sr1]; [have_result|].
      destruct (fixedWidth t >? 0); [have_result|].
      apply IListLoop. crush.
    + (* skipListLoop *)
      intros i size t sr Hf. cbn [skipListLoop].
      destruct (i <? size); [|have_result].
      destruct (ISkip t sr) as [[[e|] sr1] E]; [lia| |];
        pose proof (VSkip t sr) as H; rewrite E in *; [have_result|].
      apply IListLoop. crush_skip.
Qed.

(** Every call of [Skip] has a result: the bound [skipFuel] is enough, and
    the result is not [io.EOF] and leaves the reader no more input than it
    had. *)
Lemma Skip_terminates (t : wire.Type_) (sr : StreamReader) :
  exists err sr',
    Skip (skipFuel sr) t sr = Some (err, sr') /\ steps sr err sr'.
Proof.
  destruct (proj1 (Skip_enough (skipFuel sr)) t sr (Nat.le_refl _)) as [[err sr'] E].
  exists err, sr'. split; [exact E|].
  pose proof (proj1 (Skip_invariant (skipFuel sr)) t sr) as H.
  rewrite E in H. apply H.
Qed.

(** ** Skip: the bound does not change the result *)

Lemma Skip_more_fuel (fuel : nat) :
  forall fuel' : nat, (fuel <= fuel')%nat ->
  (forall t sr r, Skip fuel t sr = Some r -> Skip fuel' t sr = Some r) /\
  (forall sr r, skipStruct fuel sr = Some r -> skipStruct fuel' sr = Some r) /\
  (forall fieldType sr r,
     skipStructLoop fuel fieldType sr = Some r ->
     skipStructLoop fuel' fieldType sr = Some r) /\
  (forall sr r, skipMap fuel sr = Some r -> skipMap fuel' sr = Some r) /\
  (forall i size key value sr r,
     skipMapLoop fuel i size key value sr = Some r ->
     skipMapLoop fuel' i size key value sr = Some r) /\
  (forall sr r, skipList fuel sr = Some r -> skipList fuel' sr = Some r) /\
  (forall i size elemType sr r,
     skipListLoop fuel i size elemType sr = Some r ->
     skipListLoop fuel' i size elemType sr = Some r).
Proof.
  induction fuel as [|fuel IH]; intros fuel' Hle.
  - repeat split; intros; discriminate.
  - destruct fuel' as [|fuel']; [lia|].
    destruct (IH fuel' ltac:(lia))
      as (ISkip & IStruct & IStructLoop & IMap & IMapLoop & IList & IListLoop).
    repeat split.
    + intros t sr r. cbn [Skip].
      destruct (fixedWidth t >? 0); [trivial|].
      destruct (t =? wire.TBinary); [trivial|].
      destruct (t =? wire.TStruct); [apply IStruct|].
      destruct (t =? wire.TMap); [apply IMap|].
      destruct (t =? wire.TSet); [apply IList|].
      destruct (t =? wire.TList); [apply IList|].
      trivial.
    + intros sr r. cbn [skipStruct].
      destruct (ReadInt8 sr) as [[ft [e|]] sr1]; [trivial|]. apply IStructLoop.
    + intros ft sr r. cbn [skipStructLoop].
      destruct (negb (ft =? 0)); [|trivial].
      destruct (discard sr 2) as [[e|] sr1]; [trivial|].
      destruct (Skip fuel ft sr1) as [[[e|] sr2]|] eqn:E; try discriminate;
        rewrite (ISkip _ _ _ E); [trivial|].
      destruct (ReadInt8 sr2) as [[ft' [e|]] sr3]; [trivial|]. apply IStructLoop.
    + intros sr r. cbn [skipMap].
      destruct (ReadInt8 sr) as [[k [e|]] sr1]; [trivial|].
      destruct (ReadInt8 sr1) as [[v [e|]] sr2]; [trivial|].
      destruct (ReadInt32 sr2) as [[n [e|]] sr3]; [trivial|].
      destruct (n <? 0); [trivial|].
      destruct ((fixedWidth k >? 0) && (fixedWidth v >? 0)); [trivial|].
      apply IMapLoop.
    + intros i size k v sr r. cbn [skipMapLoop].
      destruct (i <? size); [|trivial].
      destruct (Skip fuel k sr) as [[[e|] sr1]|] eqn:E; try discriminate;
        rewrite (ISkip _ _ _ E); [trivial|].
      destruct (Skip fuel v sr1) as [[[e|] sr2]|] eqn:E1; try discriminate;
        rewrite (ISkip _ _ _ E1); [trivial|].
      apply IMapLoop.
    + intros sr r. cbn [skipList].
      destruct (readTypeSizeHeader sr) as [[[t n] [e|]] sr1]; [trivial|].
      destruct (fixedWidth t >? 0); [trivial|]. apply IListLoop.
    + intros i size t sr r. cbn [skipListLoop].
      destruct (i <? size); [|trivial].
      destruct (Skip fuel t sr) as [[[e|] sr1]|] eqn:E; try discriminate;
        rewrite (ISkip _ _ _ E); [trivial|].
      apply IListLoop.
Qed.

Lemma Skip_result_unique (f1 f2 : nat) (t : wire.Type_) (sr : StreamReader)
      (r1 r2 : option error * StreamReader) :
  Skip f1 t sr = Some r1 -> Skip f2 t sr = Some r2 -> r1 = r2.
Proof.
  intros H1 H2.
  apply (proj1 (Skip_more_fuel (Nat.le_max_l f1 f2))) in H1.
  apply (proj1 (Skip_more_fuel (Nat.le_max_r f1 f2))) in H2.
  congruence.
Qed.

(** ** Unexpected end of input *)

Lemma read_short (sr : StreamReader) (bs : list byte) :
  let '(data, err0, _) := io.Read (reader sr) (length bs) in
  (length data < length bs)%nat \/ err0 = Some EOF ->
  let '(_, err, _, _) := read sr bs in err = Some ErrUnexpectedEOF.
Proof.
  unfold read. destruct (io.Read (reader sr) (length bs)) as [[data err0] r].
  intros [Hshort | ->].
  - apply Nat.ltb_lt in Hshort. rewrite Hshort, orb_true_r. reflexivity.
  - reflexivity.
Qed.

Lemma read_never_EOF (sr : StreamReader) (bs : list byte) :
  let '(_, err, _, _) := read sr bs in err <> Some EOF.
Proof.
  unfold read. destruct (io.Read (reader sr) (length bs)) as [[data err0] r].
  destruct (isEOF err0 || (length data <? length bs)%nat) eqn:E.
  - discriminate.
  - apply orb_false_elim in E. destruct E as [E _].
    destruct err0 as [[]|]; try discriminate E; discriminate.
Qed.

Lemma discard_short (sr : StreamReader) (n : Z) :
  io.faultless (reader sr) = true ->
  Z.of_nat (length (io.pending (reader sr))) < n ->
  fst (discard sr n) = Some ErrUnexpectedEOF.
Proof.
  intros Hf Hn. unfold discard.
  pose proof (@CopyN_short (reader sr) n Hf Hn) as H.
  destruct (io.CopyN (reader sr) n) as [[w err] r]. cbn [fst snd] in H.
  subst err. reflexivity.
Qed.

(** A source that never fails and holds fewer than [n] bytes answers a
    [Read] for [n] bytes with a short read or with [io.EOF]. *)
Lemma Read_short (r : io.Reader) (n : nat) :
  io.faultless r = true ->
  (length (io.pending r) < n)%nat ->
  let '(data, err0, _) := io.Read r n in
  (length data < n)%nat \/ err0 = Some EOF.
Proof.
  intros Hf Hn. destruct r as [|[c|e] rest]; cbn [io.Read io.pending io.faultless] in *.
  - right. reflexivity.
  - rewrite length_app in Hn.
    replace (length c <=? n)%nat with true by (symmetry; apply Nat.leb_le; lia).
    left. lia.
  - discriminate Hf.
Qed.

Lemma unread_faultless (c : list byte) (rest : io.Reader) :
  io.faultless (io.unread c rest) = io.faultless rest.
Proof. destruct c; reflexivity. Qed.

Lemma unread_pending (c : list byte) (rest : io.Reader) :
  io.pending (io.unread c rest) = c ++ io.pending rest.
Proof. destruct c; reflexivity. Qed.

(** A binary value cut short: the length prefix announces more bytes than
    the source holds. *)
Lemma ReadBinary_truncated (threshold : Z) (b3 b2 b1 b0 : byte) (c : list byte)
      (rest : io.Reader) (buf : array8) :
  let n := int32 (bigEndian.Uint32 [b3; b2; b1; b0]) in
  io.faultless rest = true ->
  Z.of_nat (length (c ++ io.pending rest)) < n ->
  errOf (ReadBinary threshold
           {| reader := io.Data (b3 :: b2 :: b1 :: b0 :: c) :: rest; buffer := buf |})
  = Some ErrUnexpectedEOF.
Proof.
  intros n Hf Hn. unfold ReadBinary. rewrite ReadInt32_chunk. fold n.
  replace (n <? 0) with false by (symmetry; apply Z.ltb_ge; lia).
  replace (n =? 0) with false by (symmetry; apply Z.eqb_neq; lia).
  destruct (n >? threshold).
  - cbn [reader].
    pose proof (@CopyN_short (io.unread c rest) n) as H.
    rewrite unread_faultless, unread_pending in H. specialize (H Hf Hn).
    destruct (io.CopyN (io.unread c rest) n) as [[w err] r]. cbn [fst snd] in H.
    subst err. reflexivity.
  - pose proof (read_short {| reader := io.unread c rest;
                              buffer := store [b3; b2; b1; b0] buf |}
                           (repeat x00 (Z.to_nat n))) as H.
    pose proof (@Read_short (io.unread c rest) (length (repeat x00 (Z.to_nat n)))) as HS.
    rewrite unread_faultless, unread_pending in HS.
    specialize (HS Hf ltac:(rewrite repeat_length; lia)).
    cbn [reader] in H.
    destruct (io.Read (io.unread c rest) (length (repeat x00 (Z.to_nat n))))
      as [[data err0] r].
    specialize (H HS).
    destruct (read _ (repeat x00 (Z.to_nat n))) as [[[k err] bs] sr2].
    subst err. reflexivity.
Qed.

(** C6: a [read] that gets fewer bytes than it asked for, or [io.EOF], from
    the byte source reports [ErrUnexpectedEOF]; so does a [discard] of more
    bytes than a source that never fails still holds, and a [ReadBinary]
    whose length prefix announces more bytes than are left.  No operation of
    the reader returns the plain [io.EOF], and at the very end of the input
    the scalar readers report [ErrUnexpectedEOF]. *)
Theorem EOF_is_unexpected :
  (forall sr bs,
     let '(data, err0, _) := io.Read (reader sr) (length bs) in
     (length data < length bs)%nat \/ err0 = Some EOF ->
     let '(_, err, _, _) := read sr bs in err = Some ErrUnexpectedEOF) /\
  (forall sr n,
     io.faultless (reader sr) = true ->
     Z.of_nat (length (io.pending (reader sr))) < n ->
     fst (discard sr n) = Some ErrUnexpectedEOF) /\
  (forall threshold b3 b2 b1 b0 c rest buf,
     io.faultless rest = true ->
     Z.of_nat (length (c ++ io.pending rest)) < int32 (bigEndian.Uint32 [b3; b2; b1; b0]) ->
     errOf (ReadBinary threshold
              {| reader := io.Data (b3 :: b2 :: b1 :: b0 :: c) :: rest; buffer := buf |})
     = Some ErrUnexpectedEOF) /\
  (forall sr bs, let '(_, err, _, _) := read sr bs in err <> Some EOF) /\
  (forall sr n, fst (discard sr n) <> Some EOF) /\
  (forall sr,
     errOf (ReadBool sr) <> Some EOF /\
     errOf (ReadInt8 sr) <> Some EOF /\
     errOf (ReadInt16 sr) <> Some EOF /\
     errOf (ReadInt32 sr) <> Some EOF /\
     errOf (ReadInt64 sr) <> Some EOF /\
     (forall threshold, errOf (ReadBinary threshold sr) <> Some EOF) /\
     (forall threshold, errOf (ReadString threshold sr) <> Some EOF) /\
     fst (ReadStructEnd sr) <> Some EOF /\
     (let '(_, _, err, _) := ReadFieldBegin sr in err <> Some EOF) /\
     errOf (ReadListBegin sr) <> Some EOF /\
     errOf (ReadSetBegin sr) <> Some EOF /\
     errOf (ReadMapBegin sr) <> Some EOF /\
     (forall fuel t r, Skip fuel t sr = Some r -> fst r <> Some EOF)) /\
  (forall buf,
     let sr := {| reader := []; buffer := buf |} in
     errOf (ReadBool sr) = Some ErrUnexpectedEOF /\
     errOf (ReadInt8 sr) = Some ErrUnexpectedEOF /\
     errOf (ReadInt16 sr) = Some ErrUnexpectedEOF /\
     errOf (ReadInt32 sr) = Some ErrUnexpectedEOF /\
     errOf (ReadInt64 sr) = Some ErrUnexpectedEOF).
Proof.
  split; [exact read_short|].
  split; [exact discard_short|].
  split; [intros; now apply ReadBinary_truncated|].
  split; [exact read_never_EOF|].
  split.
  { intros sr n. pose proof (discard_steps sr n) as H.
    destruct (discard sr n) as [err sr']. cbn [fst]. crush. }
  split; [|intros buf; repeat split].
  intros sr. unfold errOf. repeat split.
  - pose proof (ReadBool_steps sr) as H.
    destruct (ReadBool sr) as [[v err] sr']. cbn [fst snd]. crush.
  - pose proof (ReadInt8_consumes sr) as H.
    destruct (ReadInt8 sr) as [[v err] sr']. cbn [fst snd]. crush.
  - pose proof (ReadInt16_consumes sr) as H.
    destruct (ReadInt16 sr) as [[v err] sr']. cbn [fst snd]. crush.
  - pose proof (ReadInt32_consumes sr) as H.
    destruct (ReadInt32 sr) as [[v err] sr']. cbn [fst snd]. crush.
  - pose proof (ReadInt64_consumes sr) as H.
    destruct (ReadInt64 sr) as [[v err] sr']. cbn [fst snd]. crush.
  - intros threshold. pose proof (ReadBinary_steps threshold sr) as H.
    destruct (ReadBinary threshold sr) as [[v err] sr']. cbn [fst snd]. crush.
  - intros threshold. unfold ReadString.
    pose proof (ReadBinary_steps threshold sr) as H.
    destruct (ReadBinary threshold sr) as [[v err] sr']. cbn [fst snd]. crush.
  - pose proof (ReadStructEnd_steps sr) as H.
    destruct (ReadStructEnd sr) as [err sr']. cbn [fst]. crush.
  - pose proof (ReadFieldBegin_steps sr) as H.
    destruct (ReadFieldBegin sr) as [[[fh more] err] sr']. crush.
  - pose proof (ReadListBegin_steps sr) as H.
    destruct (ReadListBegin sr) as [[v err] sr']. cbn [fst snd]. crush.
  - pose proof (ReadSetBegin_steps sr) as H.
    destruct (ReadSetBegin sr) as [[v err] sr']. cbn [fst snd]. crush.
  - pose proof (ReadMapBegin_steps sr) as H.
    destruct (ReadMapBegin sr) as [[v err] sr']. cbn [fst snd]. crush.
  - intros fuel t [err sr'] E.
    pose proof (proj1 (Skip_invariant fuel) t sr) as H. rewrite E in H.
    cbn [fst]. crush_skip.
Qed.

(** A read of four bytes from a source that delivers two of them at a time,
    and a discard of four bytes from a source that holds three. *)
Lemma EOF_is_unexpected_witness :
  (let '(_, err, _, _) :=
     read (NewStreamReader [io.Data [x00; x01]; io.Data [x02; x03]])
          [x00; x00; x00; x00] in
   err = Some ErrUnexpectedEOF) /\
  fst (discard (NewStreamReader [io.Data [x00; x01]; io.Data [x02]]) 4)
  = Some ErrUnexpectedEOF.
Proof.
  split.
  - apply (proj1 EOF_is_unexpected
             (NewStreamReader [io.Data [x00; x01]; io.Data [x02; x03]])
             [x00; x00; x00; x00]).
    left. cbn. lia.
  - apply (proj1 (proj2 EOF_is_unexpected)
             (NewStreamReader [io.Data [x00; x01]; io.Data [x02]]) 4).
    + reflexivity.
    + cbn. lia.
Defined.

(** A discard reads on after a short read, where a [read] fails. *)
Example discard_reads_on :
  discard (NewStreamReader [io.Data [x00; x01]; io.Data [x02; x03]]) 4
  = (None, NewStreamReader []).
Proof. reflexivity. Qed.

(** ** Sets are skipped as lists *)

(** C10: [Skip] of the [SET] type and [Skip] of the [LIST] type are the same
    function of the reader: the same error and the same reader afterwards,
    and both have a result.  Both read the header made of the element type
    and the length; a negative length is rejected; for a fixed-width element
    type [length * width] bytes are discarded; otherwise [Skip] of the
    element type runs [length] times, from index 0. *)
Theorem Skip_set_as_list :
  (forall fuel sr, Skip fuel wire.TSet sr = Skip fuel wire.TList sr) /\
  (forall sr, exists r,
     Skip (skipFuel sr) wire.TSet sr = Some r /\
     Skip (skipFuel sr) wire.TList sr = Some r) /\
  (forall (t : wire.Type_) (tb l3 l2 l1 l0 : byte) (payload c : list byte)
          (rest : io.Reader) (buf : array8) (fuel : nat),
     let T := int8 (u8 tb) in
     let n := int32 (bigEndian.Uint32 [l3; l2; l1; l0]) in
     let src bs := {| reader := io.Data ([tb; l3; l2; l1; l0] ++ bs) :: rest;
                      buffer := buf |} in
     let out bs := {| reader := io.unread bs rest;
                      buffer := store [l3; l2; l1; l0] (store [tb] buf) |} in
     t = wire.TSet \/ t = wire.TList ->
     (n < 0 ->
      Skip (S (S fuel)) t (src c) = Some (Some (ErrNegativeLength n), out c)) /\
     (0 <= n -> fixedWidth T > 0 ->
      Z.of_nat (length payload) = fixedWidth T * n ->
      Skip (S (S fuel)) t (src (payload ++ c)) = Some (None, out c)) /\
     (0 <= n -> fixedWidth T <= 0 ->
      Skip (S (S fuel)) t (src c) = skipListLoop fuel 0 n T (out c))).
Proof.
  split; [intros [|fuel] sr; reflexivity|].
  split.
  { intros sr. destruct (Skip_terminates wire.TList sr) as (err & sr' & E & _).
    exists (err, sr'). split; [|exact E].
    destruct (skipFuel sr); exact E. }
  intros t tb l3 l2 l1 l0 payload c rest buf fuel T n src out Ht.
  assert (E : forall s, Skip (S (S fuel)) t s = skipList (S fuel) s)
    by (destruct Ht as [-> | ->]; reflexivity).
  assert (Hhdr : forall bs, 0 <= n ->
            readTypeSizeHeader (src bs) = (T, n, None, out bs)).
  { intros bs Hn. unfold readTypeSizeHeader, src. cbn [app].
    rewrite ReadInt8_chunk, unread_cons, ReadInt32_chunk. fold n.
    replace (n <? 0) with false by (symmetry; apply Z.ltb_ge; exact Hn).
    reflexivity. }
  repeat split.
  - intros Hn. rewrite E. cbn [skipList]. unfold readTypeSizeHeader, src. cbn [app].
    rewrite ReadInt8_chunk, unread_cons, ReadInt32_chunk. fold n.
    replace (n <? 0) with true by (symmetry; apply Z.ltb_lt; exact Hn).
    reflexivity.
  - intros Hn HT Hlen. rewrite E. cbn [skipList]. rewrite (Hhdr _ Hn).
    replace (fixedWidth T >? 0) with true by (symmetry; apply Z.gtb_lt; lia).
    unfold out. rewrite (discard_exact payload c rest _ Hlen). reflexivity.
  - intros Hn HT. rewrite E. cbn [skipList]. rewrite (Hhdr _ Hn).
    replace (fixedWidth T >? 0) with false
      by (symmetry; rewrite Z.gtb_ltb; apply Z.ltb_ge; exact HT).
    reflexivity.
Qed.

(** A set of two binary values, of one byte and of none, skipped as a set
    and as a list. *)
Lemma Skip_set_as_list_witness :
  let sr := NewStreamReader
              [io.Data [x0b; x00; x00; x00; x02;
                        x00; x00; x00; x01; xaa;
                        x00; x00; x00; x00;
                        x7f]] in
  let sr' := {| reader := [io.Data [x7f]];
                buffer := Array8 x00 x00 x00 x00 x00 x00 x00 x00 |} in
  Skip 5 wire.TSet sr = Some (None, sr') /\
  Skip 5 wire.TList sr = Some (None, sr').
Proof.
  intros sr sr'.
  assert (H : Skip 5 wire.TList sr = Some (None, sr')) by reflexivity.
  split; [|exact H].
  rewrite (proj1 Skip_set_as_list 5%nat sr). exact H.
Defined.

(** * Properties of the enum compiler *)

Lemma claimed_false (names : list string) (name : string) :
  compile.claimed names name = false <-> ~ In name names.
Proof.
  unfold compile.claimed. split.
  - intros H Hin. assert (E : existsb (String.eqb name) names = true).
    { apply existsb_exists. exists name. split; [exact Hin | apply String.eqb_refl]. }
    congruence.
  - intros Hn. destruct (existsb (String.eqb name) names) eqn:E; [|reflexivity].
    apply existsb_exists in E. destruct E as (x & Hx & Heq).
    apply String.eqb_eq in Heq. subst x. contradiction.
Qed.

Lemma claimed_true (names : list string) (name : string) :
  compile.claimed names name = true <-> In name names.
Proof.
  unfold compile.claimed. rewrite existsb_exists. split.
  - intros (x & Hx & Heq). apply String.eqb_eq in Heq. now subst x.
  - intros Hin. exists name. split; [exact Hin | apply String.eqb_refl].
Qed.

Lemma int32_in_range (v : Z) : isInt32 v = true -> int32 v = v.
Proof.
  unfold isInt32. intros H. apply andb_prop in H. destruct H as [Hlo Hhi].
  apply Z.leb_le in Hlo. apply Z.ltb_lt in Hhi.
  unfold int32, signed. change (32 - 1) with 31.
  destruct (Z.lt_ge_cases v 0) as [Hneg|Hpos].
  - replace (v mod 2 ^ 32) with (v + 2 ^ 32).
    + replace (v + 2 ^ 32 <? 2 ^ 31) with false by (symmetry; apply Z.ltb_ge; lia).
      lia.
    + symmetry. replace v with (v + 2 ^ 32 + (-1) * 2 ^ 32) at 1 by lia.
      rewrite Z.mod_add by lia. apply Z.mod_small. lia.
  - rewrite Z.mod_small by lia.
    replace (v <? 2 ^ 31) with true by (symmetry; apply Z.ltb_lt; lia).
    reflexivity.
Qed.

Lemma int32_isInt32 (v : Z) : isInt32 (int32 v) = true.
Proof.
  unfold isInt32, int32, signed. change (32 - 1) with 31.
  pose proof (Z.mod_pos_bound v (2 ^ 32) ltac:(lia)) as Hm.
  apply andb_true_intro.
  destruct (v mod 2 ^ 32 <? 2 ^ 31) eqn:C.
  - apply Z.ltb_lt in C. split; [apply Z.leb_le | apply Z.ltb_lt]; lia.
  - apply Z.ltb_ge in C. split; [apply Z.leb_le | apply Z.ltb_lt]; lia.
Qed.

(** The values of compiled items are in the range of [i32]. *)
Lemma compileItems_isInt32 (enum : string) (items : list ast.EnumItem) :
  forall (names : list string) (prev : option Z) (out : list compile.EnumItem),
    compile.compileItems enum names prev items = inl out ->
    forallb isInt32 (map compile.ItemValue out) = true.
Proof.
  induction items as [|a rest IH]; intros names prev out E.
  - injection E as <-. reflexivity.
  - cbn [compile.compileItems] in E.
    destruct (compile.claimed names (ast.ItemName a)); [discriminate|].
    destruct (compile.compileItems enum (ast.ItemName a :: names) _ rest)
      as [out'|err] eqn:E'; [|discriminate].
    injection E as <-. cbn [map forallb compile.ItemValue].
    rewrite int32_isInt32, (IH _ _ _ E'). reflexivity.
Qed.

(** Items with names that differ from one another and from the names
    claimed before, and with values in the range of [i32], all compile,
    each to the value it is owed. *)
Lemma compileItems_values (enum : string) (items : list ast.EnumItem) :
  forall (names : list string) (prev : option Z),
    NoDup (map ast.ItemName items) ->
    (forall x, In x (map ast.ItemName items) -> ~ In x names) ->
    forallb isInt32 (specValues prev items) = true ->
    exists out,
      compile.compileItems enum names prev items = inl out /\
      map compile.ItemName out = map ast.ItemName items /\
      map compile.ItemValue out = specValues prev items /\
      forall i, (i < length items)%nat ->
        option_map compile.ItemValue (nth_error out i) = owedValue prev items out i.
Proof.
  induction items as [|a rest IH]; intros names prev Hnd Hfresh Hrange.
  - exists []. repeat split. intros i Hi. cbn [length] in Hi. lia.
  - cbn [map] in Hnd, Hfresh. apply NoDup_cons_iff in Hnd. destruct Hnd as [Ha Hrest].
    cbn [compile.compileItems]. cbn [specValues forallb] in Hrange.
    replace (compile.claimed names (ast.ItemName a)) with false
      by (symmetry; apply claimed_false, Hfresh; left; reflexivity).
    set (value := match ast.ItemValue a, prev with
                  | Some v, _ => v
                  | None, Some p => p + 1
                  | None, None => 0
                  end) in *.
    apply andb_prop in Hrange. destruct Hrange as [Hvalue Hrange].
    rewrite (int32_in_range value Hvalue).
    destruct (IH (ast.ItemName a :: names) (Some value) Hrest)
      as (out & E & Hn & Hs & Hv).
    { intros x Hx [Hx'|Hx'].
      - subst x. contradiction.
      - apply (Hfresh x); [right; exact Hx | exact Hx']. }
    { exact Hrange. }
    rewrite E. eexists. split; [reflexivity|]. split; [|split].
    + cbn [map compile.ItemName]. now rewrite Hn.
    + cbn [map compile.ItemValue specValues]. fold value. now rewrite Hs.
    + intros [|i] Hi.
      * unfold owedValue, value. cbn [nth_error option_map compile.ItemValue].
        destruct (ast.ItemValue a), prev; reflexivity.
      * cbn [length] in Hi. specialize (Hv i ltac:(lia)).
        cbn [nth_error]. rewrite Hv. unfold owedValue. cbn [nth_error].
        destruct (nth_error rest i) as [a'|]; [|reflexivity].
        destruct (ast.ItemValue a'); [reflexivity|].
        destruct i; reflexivity.
Qed.

(** Items that compile have names that differ from one another and from
    the names claimed before. *)
Lemma compileItems_inl (enum : string) (items : list ast.EnumItem) :
  forall (names : list string) (prev : option Z) (out : list compile.EnumItem),
    compile.compileItems enum names prev items = inl out ->
    NoDup (map ast.ItemName items) /\
    (forall x, In x (map ast.ItemName items) -> ~ In x names).
Proof.
  induction items as [|a rest IH]; intros names prev out E.
  - split; [constructor | intros x []].
  - cbn [compile.compileItems] in E.
    destruct (compile.claimed names (ast.ItemName a)) eqn:C; [discriminate|].
    apply claimed_false in C.
    destruct (compile.compileItems enum (ast.ItemName a :: names) _ rest)
      as [out'|err] eqn:E'; [|discriminate].
    destruct (IH _ _ _ E') as [Hnd Hfresh].
    cbn [map]. split.
    + constructor; [|exact Hnd].
      intros Hin. apply (Hfresh _ Hin). left. reflexivity.
    + intros x [<-|Hx]; [exact C|].
      intros Hin. apply (Hfresh _ Hx). right. exact Hin.
Qed.

(** The error of items that do not compile names an item whose name was
    claimed before it. *)
Lemma compileItems_inr (enum : string) (items : list ast.EnumItem) :
  forall (names : list string) (prev : option Z) (err : compile.compileError),
    compile.compileItems enum names prev items = inr err ->
    exists pre a post,
      items = pre ++ a :: post /\
      In (ast.ItemName a) (names ++ map ast.ItemName pre) /\
      err = {| compile.Target := (enum ++ "." ++ ast.ItemName a)%string;
               compile.Reason := compile.nameConflict (ast.ItemName a) |}.
Proof.
  induction items as [|a rest IH]; intros names prev err E.
  - discriminate.
  - cbn [compile.compileItems] in E.
    destruct (compile.claimed names (ast.ItemName a)) eqn:C.
    + apply claimed_true in C. exists [], a, rest.
      cbn [app map]. rewrite app_nil_r. repeat split; [exact C | congruence].
    + destruct (compile.compileItems enum (ast.ItemName a :: names) _ rest)
        as [out'|err'] eqn:E'; [discriminate|].
      destruct (IH _ _ _ E') as (pre & b & post & -> & Hin & ->).
      exists (a :: pre), b, post. repeat split; [|congruence].
      cbn [map]. apply in_app_iff. apply in_app_iff in Hin.
      destruct Hin as [[<-|Hin]|Hin].
      * right. left. reflexivity.
      * left. exact Hin.
      * right. right. exact Hin.
Qed.

(** C7: an enum whose item names differ and whose values, as the spec
    counts them, are in the range of [i32] compiles; the compiled items have
    the names of the declared items, in order, and these values: an explicit
    value as it is, otherwise the value of the item before plus one, and 0
    for a first item.  The declaration [enum foo { A, B, C = 10, D, E }]
    compiles to the items (A,0), (B,1), (C,10), (D,11), (E,12).  The values
    of the items of any compiled enum are in the range of [i32]. *)
Theorem compileEnum_values :
  (forall (src : ast.Enum) (spec : compile.EnumSpec),
     compile.compileEnum src = inl spec ->
     forallb isInt32 (map compile.ItemValue (compile.Items spec)) = true)
  /\
  (forall src : ast.Enum,
     NoDup (map ast.ItemName (ast.Items src)) ->
     forallb isInt32 (specValues None (ast.Items src)) = true ->
     exists spec,
       compile.compileEnum src = inl spec /\
       compile.Name spec = ast.Name src /\
       map compile.ItemName (compile.Items spec) = map ast.ItemName (ast.Items src) /\
       map compile.ItemValue (compile.Items spec) = specValues None (ast.Items src) /\
       forall i, (i < length (ast.Items src))%nat ->
         option_map compile.ItemValue (nth_error (compile.Items spec) i)
         = owedValue None (ast.Items src) (compile.Items spec) i)
  /\
  compile.compileEnum enum_test.foo
  = inl (enum_test.spec "foo"
           [("A", 0); ("B", 1); ("C", 10); ("D", 11); ("E", 12)]%string).
Proof.
  split; [|split; [|reflexivity]].
  { intros src spec. unfold compile.compileEnum.
    destruct (compile.compileItems (ast.Name src) [] None (ast.Items src))
      as [out|err] eqn:E; [|discriminate].
    intros H. injection H as <-. exact (compileItems_isInt32 _ _ _ _ E). }
  intros src Hnd Hrange. unfold compile.compileEnum.
  destruct (compileItems_values (ast.Name src) (ast.Items src) [] None Hnd)
    as (out & E & Hn & Hs & Hv).
  { intros x _ []. }
  { exact Hrange. }
  rewrite E. eexists. split; [reflexivity|]. repeat split; assumption.
Qed.

(** The enum [bar] of the tests, where values repeat. *)
Lemma compileEnum_values_witness :
  exists spec,
    compile.compileEnum enum_test.bar = inl spec /\
    compile.Name spec = "bar"%string /\
    map compile.ItemName (compile.Items spec) = ["A"; "B"; "C"; "D"; "E"]%string /\
    map compile.ItemValue (compile.Items spec) = [0; 0; 1; 0; 1] /\
    forall i, (i < 5)%nat ->
      option_map compile.ItemValue (nth_error (compile.Items spec) i)
      = owedValue None (ast.Items enum_test.bar) (compile.Items spec) i.
Proof.
  apply (proj1 (proj2 compileEnum_values) enum_test.bar).
  - repeat (constructor; [cbn; intuition discriminate|]). constructor.
  - reflexivity.
Defined.

(** The other enums of [TestCompileEnumSuccess]. *)
Example compileEnum_tests :
  compile.compileEnum enum_test.Role
  = inl (enum_test.spec "Role"
           [("Disabled", 0); ("User", 1); ("Moderator", 2); ("Admin", 3)]%string) /\
  compile.compileEnum enum_test.CommentStatus
  = inl (enum_test.spec "CommentStatus"
           [("Visible", 12345); ("Hidden", 54321)]%string) /\
  compile.compileEnum enum_test.bar
  = inl (enum_test.spec "bar"
           [("A", 0); ("B", 0); ("C", 1); ("D", 0); ("E", 1)]%string).
Proof. repeat split. Qed.

(** C8: an enum in which two items have the same name does not compile;
    the error names the enum and the first item whose name was used before
    it.  For [enum Foo { A, B, C, A, D }] the message of the error contains
    [cannot compile "Foo.A"] and [the name "A" has already been used]. *)
Theorem compileEnum_duplicate :
  (forall src : ast.Enum,
     ~ NoDup (map ast.ItemName (ast.Items src)) ->
     exists pre a post,
       ast.Items src = pre ++ a :: post /\
       In (ast.ItemName a) (map ast.ItemName pre) /\
       compile.compileEnum src
       = inr {| compile.Target := (ast.Name src ++ "." ++ ast.ItemName a)%string;
                compile.Reason := compile.nameConflict (ast.ItemName a) |})
  /\
  (exists err,
     compile.compileEnum enum_test.Foo = inr err /\
     compile.Contains (compile.Error err)
       ("cannot compile " ++ compile.quote "Foo.A")%string = true /\
     compile.Contains (compile.Error err)
       ("the name " ++ compile.quote "A" ++ " has already been used")%string = true).
Proof.
  split.
  - intros src Hdup. unfold compile.compileEnum.
    destruct (compile.compileItems (ast.Name src) [] None (ast.Items src))
      as [out|err] eqn:E.
    + exfalso. apply Hdup. exact (proj1 (compileItems_inl _ _ _ _ E)).
    + destruct (compileItems_inr _ _ _ _ E) as (pre & a & post & Hi & Hin & ->).
      exists pre, a, post. repeat split; assumption.
  - eexists. split; [reflexivity|]. split; reflexivity.
Qed.

Lemma compileEnum_duplicate_witness :
  exists pre a post,
    ast.Items enum_test.Foo = pre ++ a :: post /\
    In (ast.ItemName a) (map ast.ItemName pre) /\
    compile.compileEnum enum_test.Foo
    = inr {| compile.Target := ("Foo" ++ "." ++ ast.ItemName a)%string;
             compile.Reason := compile.nameConflict (ast.ItemName a) |}.
Proof.
  apply (proj1 compileEnum_duplicate enum_test.Foo).
  intros H. apply NoDup_cons_iff in H. destruct H as [H _].
  apply H. cbn. auto.
Defined.


(** * Further properties of the streaming reader *)

(** ** Big-endian integers *)

Lemma signed_range (w x : Z) :
  0 < w -> - 2 ^ (w - 1) <= signed w x < 2 ^ (w - 1).
Proof.
  intros Hw. unfold signed.
  assert (E : 2 ^ w = 2 * 2 ^ (w - 1)).
  { replace w with (1 + (w - 1)) at 1 by lia. rewrite Z.pow_add_r by lia. reflexivity. }
  assert (Hp : 0 < 2 ^ (w - 1)) by (apply Z.pow_pos_nonneg; lia).
  pose proof (Z.mod_pos_bound x (2 ^ w) ltac:(lia)) as Hm.
  destruct (x mod 2 ^ w <? 2 ^ (w - 1)) eqn:C.
  - apply Z.ltb_lt in C. lia.
  - apply Z.ltb_ge in C. lia.
Qed.

Lemma signed_mod (w x : Z) :
  0 < w -> signed w x mod 2 ^ w = x mod 2 ^ w.
Proof.
  intros Hw. unfold signed.
  assert (Hp : 0 < 2 ^ w) by (apply Z.pow_pos_nonneg; lia).
  destruct (x mod 2 ^ w <? 2 ^ (w - 1)).
  - apply Z.mod_mod. lia.
  - replace (x mod 2 ^ w - 2 ^ w) with (x mod 2 ^ w + (-1) * 2 ^ w) by lia.
    rewrite Z.mod_add by lia. apply Z.mod_mod. lia.
Qed.

Lemma u8_range (b : byte) : 0 <= u8 b < 256.
Proof.
  unfold u8. pose proof (Byte.to_N_bounded b) as H. lia.
Qed.

(** Putting [hi] above the [k] low bits of [lo] adds them up. *)
Lemma lor_shiftl (lo hi k : Z) :
  0 <= k -> 0 <= lo < 2 ^ k ->
  Z.lor lo (Z.shiftl hi k) = hi * 2 ^ k + lo.
Proof.
  intros Hk Hlo.
  assert (Hland : Z.land lo (Z.shiftl hi k) = 0).
  { apply Z.bits_inj'. intros n Hn. rewrite Z.land_spec, Z.bits_0.
    destruct (Z.lt_ge_cases n k) as [Hlt|Hge].
    - rewrite (Z.shiftl_spec_low hi k n Hlt). apply andb_false_r.
    - rewrite <- (Z.mod_small lo (2 ^ k)) by lia.
      rewrite Z.mod_pow2_bits_high by lia. reflexivity. }
  rewrite <- Z.lxor_lor by exact Hland.
  rewrite <- Z.add_nocarry_lxor by exact Hland.
  rewrite Z.shiftl_mul_pow2 by lia. lia.
Qed.

Lemma Uint16_value (b1 b0 : byte) :
  bigEndian.Uint16 [b1; b0] = u8 b1 * 2 ^ 8 + u8 b0.
Proof.
  unfold bigEndian.Uint16, idx. cbn [nth].
  pose proof (u8_range b0). apply lor_shiftl; lia.
Qed.

Lemma Uint32_value (b3 b2 b1 b0 : byte) :
  bigEndian.Uint32 [b3; b2; b1; b0]
  = u8 b3 * 2 ^ 24 + u8 b2 * 2 ^ 16 + u8 b1 * 2 ^ 8 + u8 b0.
Proof.
  unfold bigEndian.Uint32, idx. cbn [nth].
  pose proof (u8_range b0). pose proof (u8_range b1).
  pose proof (u8_range b2). pose proof (u8_range b3).
  rewrite (lor_shiftl (lo := u8 b0) (u8 b1) (k := 8)) by lia.
  rewrite (lor_shiftl (u8 b2) (k := 16)) by lia.
  rewrite (lor_shiftl (u8 b3) (k := 24)) by lia.
  lia.
Qed.

Lemma Uint64_value (b7 b6 b5 b4 b3 b2 b1 b0 : byte) :
  bigEndian.Uint64 [b7; b6; b5; b4; b3; b2; b1; b0]
  = u8 b7 * 2 ^ 56 + u8 b6 * 2 ^ 48 + u8 b5 * 2 ^ 40 + u8 b4 * 2 ^ 32
    + u8 b3 * 2 ^ 24 + u8 b2 * 2 ^ 16 + u8 b1 * 2 ^ 8 + u8 b0.
Proof.
  unfold bigEndian.Uint64, idx. cbn [nth].
  pose proof (u8_range b0). pose proof (u8_range b1).
  pose proof (u8_range b2). pose proof (u8_range b3).
  pose proof (u8_range b4). pose proof (u8_range b5).
  pose proof (u8_range b6). pose proof (u8_range b7).
  rewrite (lor_shiftl (lo := u8 b0) (u8 b1) (k := 8)) by lia.
  rewrite (lor_shiftl (u8 b2) (k := 16)) by lia.
  rewrite (lor_shiftl (u8 b3) (k := 24)) by lia.
  rewrite (lor_shiftl (u8 b4) (k := 32)) by lia.
  rewrite (lor_shiftl (u8 b5) (k := 40)) by lia.
  rewrite (lor_shiftl (u8 b6) (k := 48)) by lia.
  rewrite (lor_shiftl (u8 b7) (k := 56)) by lia.
  lia.
Qed.

Lemma ReadInt64_chunk (b7 b6 b5 b4 b3 b2 b1 b0 : byte) (c : list byte)
      (rest : io.Reader) (buf : array8) :
  ReadInt64 {| reader := io.Data (b7 :: b6 :: b5 :: b4 :: b3 :: b2 :: b1 :: b0 :: c) :: rest;
               buffer := buf |}
  = (int64 (bigEndian.Uint64 [b7; b6; b5; b4; b3; b2; b1; b0]), None,
     {| reader := io.unread c rest;
        buffer := store [b7; b6; b5; b4; b3; b2; b1; b0] buf |}).
Proof.
  unfold ReadInt64.
  pose proof (readBuffer_chunk (k := 8) [b7; b6; b5; b4; b3; b2; b1; b0] c rest buf
                eq_refl) as H.
  cbn [app] in H. rewrite H by lia. reflexivity.
Qed.

(** X1: the integer readers take 1, 2, 4 and 8 bytes and return the signed
    integer these bytes are in big-endian two's complement: the value lies
    in the range of its type and is congruent, modulo 2 to the width, to the
    bytes read as a base-256 number with the first byte most significant. *)
Theorem ReadInt_big_endian (c : list byte) (rest : io.Reader) (buf : array8) :
  let sr bs := {| reader := io.Data (bs ++ c) :: rest; buffer := buf |} in
  let sr' bs := {| reader := io.unread c rest; buffer := store bs buf |} in
  (forall b0, exists v,
     ReadInt8 (sr [b0]) = (v, None, sr' [b0]) /\
     - 2 ^ 7 <= v < 2 ^ 7 /\ v mod 2 ^ 8 = u8 b0) /\
  (forall b1 b0, exists v,
     ReadInt16 (sr [b1; b0]) = (v, None, sr' [b1; b0]) /\
     - 2 ^ 15 <= v < 2 ^ 15 /\ v mod 2 ^ 16 = u8 b1 * 2 ^ 8 + u8 b0) /\
  (forall b3 b2 b1 b0, exists v,
     ReadInt32 (sr [b3; b2; b1; b0]) = (v, None, sr' [b3; b2; b1; b0]) /\
     - 2 ^ 31 <= v < 2 ^ 31 /\
     v mod 2 ^ 32 = u8 b3 * 2 ^ 24 + u8 b2 * 2 ^ 16 + u8 b1 * 2 ^ 8 + u8 b0) /\
  (forall b7 b6 b5 b4 b3 b2 b1 b0, exists v,
     ReadInt64 (sr [b7; b6; b5; b4; b3; b2; b1; b0])
     = (v, None, sr' [b7; b6; b5; b4; b3; b2; b1; b0]) /\
     - 2 ^ 63 <= v < 2 ^ 63 /\
     v mod 2 ^ 64
     = u8 b7 * 2 ^ 56 + u8 b6 * 2 ^ 48 + u8 b5 * 2 ^ 40 + u8 b4 * 2 ^ 32
       + u8 b3 * 2 ^ 24 + u8 b2 * 2 ^ 16 + u8 b1 * 2 ^ 8 + u8 b0).
Proof.
  intros sr sr'. unfold sr, sr'. repeat split.
  - intros b0. eexists. cbn [app]. rewrite ReadInt8_chunk.
    split; [reflexivity|]. split.
    + apply (@signed_range 8 (u8 b0)). lia.
    + unfold int8. rewrite signed_mod by lia.
      pose proof (u8_range b0). apply Z.mod_small. lia.
  - intros b1 b0. eexists. cbn [app]. rewrite ReadInt16_chunk.
    split; [reflexivity|]. split.
    + apply (@signed_range 16). lia.
    + unfold int16. rewrite signed_mod by lia. rewrite Uint16_value.
      pose proof (u8_range b0). pose proof (u8_range b1).
      apply Z.mod_small. lia.
  - intros b3 b2 b1 b0. eexists. cbn [app]. rewrite ReadInt32_chunk.
    split; [reflexivity|]. split.
    + apply (@signed_range 32). lia.
    + unfold int32. rewrite signed_mod by lia. rewrite Uint32_value.
      pose proof (u8_range b0). pose proof (u8_range b1).
      pose proof (u8_range b2). pose proof (u8_range b3).
      apply Z.mod_small. lia.
  - intros b7 b6 b5 b4 b3 b2 b1 b0. eexists. cbn [app]. rewrite ReadInt64_chunk.
    split; [reflexivity|]. split.
    + apply (@signed_range 64). lia.
    + unfold int64. rewrite signed_mod by lia. rewrite Uint64_value.
      pose proof (u8_range b0). pose proof (u8_range b1).
      pose proof (u8_range b2). pose proof (u8_range b3).
      pose proof (u8_range b4). pose proof (u8_range b5).
      pose proof (u8_range b6). pose proof (u8_range b7).
      apply Z.mod_small. lia.
Qed.

(** ** Binary values and strings *)

(** X2: when the bytes after a length prefix [n] are all in the chunk at
    hand, [ReadBinary] returns exactly these [n] bytes and no error, and
    consumes the prefix and the bytes; [ReadString] returns the same bytes.
    This holds on both sides of [bytesAllocThreshold]. *)
Theorem ReadBinary_payload (threshold : Z) (l3 l2 l1 l0 : byte)
        (payload c : list byte) (rest : io.Reader) (buf : array8) :
  let sr := {| reader := io.Data ([l3; l2; l1; l0] ++ payload ++ c) :: rest;
               buffer := buf |} in
  let sr' := {| reader := io.unread c rest; buffer := store [l3; l2; l1; l0] buf |} in
  Z.of_nat (length payload) = int32 (bigEndian.Uint32 [l3; l2; l1; l0]) ->
  ReadBinary threshold sr = (Some payload, None, sr') /\
  ReadString threshold sr = (payload, None, sr').
Proof.
  intros sr sr' Hlen.
  assert (H : ReadBinary threshold sr = (Some payload, None, sr')).
  { unfold ReadBinary, sr, sr'. cbn [app]. rewrite ReadInt32_chunk.
    rewrite <- Hlen.
    replace (Z.of_nat (length payload) <? 0) with false
      by (symmetry; apply Z.ltb_ge; lia).
    destruct (Z.of_nat (length payload) =? 0) eqn:E0.
    { apply Z.eqb_eq in E0. destruct payload; [reflexivity | cbn [length] in E0; lia]. }
    destruct (Z.of_nat (length payload) >? threshold).
    - cbn [reader]. rewrite CopyN_exact. reflexivity.
    - apply Z.eqb_neq in E0.
      destruct payload as [|p0 payload]; [cbn [length] in E0; lia|].
      cbn [app io.unread].
      change (p0 :: payload ++ c) with ((p0 :: payload) ++ c).
      rewrite read_chunk by (rewrite repeat_length; lia).
      reflexivity. }
  split; [exact H|]. unfold ReadString. rewrite H. reflexivity.
Qed.

Lemma ReadBinary_payload_witness :
  ReadBinary 1048576
    (NewStreamReader [io.Data [x00; x00; x00; x02; x68; x69; x00]])
  = (Some [x68; x69], None,
     {| reader := [io.Data [x00]];
        buffer := Array8 x00 x00 x00 x02 x00 x00 x00 x00 |}).
Proof.
  apply (ReadBinary_payload 1048576 x00 x00 x00 x02 [x68; x69] [x00] []
           (Array8 x00 x00 x00 x00 x00 x00 x00 x00)).
  reflexivity.
Defined.

(** X3: when the source delivers the bytes of a binary value in two chunks,
    the outcome depends on [bytesAllocThreshold]: a length above it is
    copied with [io.CopyN], which reads on, and the whole value is returned;
    a length up to it is read with one [read], which takes the short read
    for the end of the input and fails with [ErrUnexpectedEOF], returning
    the first chunk padded with zeros and leaving the second unread. *)
Theorem ReadBinary_two_chunks (threshold : Z) (l3 l2 l1 l0 p q : byte)
        (p1 p2 c : list byte) (rest : io.Reader) (buf : array8) :
  let n := int32 (bigEndian.Uint32 [l3; l2; l1; l0]) in
  let first := p :: p1 in
  let second := q :: p2 in
  let sr := {| reader := io.Data ([l3; l2; l1; l0] ++ first)
                         :: io.Data (second ++ c) :: rest;
               buffer := buf |} in
  let buf' := store [l3; l2; l1; l0] buf in
  Z.of_nat (length (first ++ second)) = n ->
  (n > threshold ->
   ReadBinary threshold sr
   = (Some (first ++ second), None,
      {| reader := io.unread c rest; buffer := buf' |})) /\
  (n <= threshold ->
   ReadBinary threshold sr
   = (Some (first ++ repeat x00 (length second)), Some ErrUnexpectedEOF,
      {| reader := io.Data (second ++ c) :: rest; buffer := buf' |})).
Proof.
  intros n first second sr buf' Hlen.
  assert (Hpos : 0 < n).
  { rewrite <- Hlen, length_app. unfold first. cbn [length]. lia. }
  assert (H32 : ReadInt32 sr
                = (n, None, {| reader := io.Data first :: io.Data (second ++ c) :: rest;
                               buffer := buf' |})).
  { unfold sr, first. cbn [app]. rewrite ReadInt32_chunk. reflexivity. }
  split; intros Hthr; unfold ReadBinary; rewrite H32;
    replace (n <? 0) with false by (symmetry; apply Z.ltb_ge; lia);
    replace (n =? 0) with false by (symmetry; apply Z.eqb_neq; lia).
  - replace (n >? threshold) with true by (symmetry; apply Z.gtb_lt; lia).
    cbn [reader]. rewrite CopyN_positive_unfold by lia.
    replace (Z.of_nat (length first) <=? n) with true
      by (symmetry; apply Z.leb_le; rewrite <- Hlen, length_app; lia).
    replace (n - Z.of_nat (length first)) with (Z.of_nat (length second))
      by (rewrite <- Hlen, length_app; lia).
    change (io.Data (second ++ c) :: rest) with (io.unread (second ++ c) rest).
    rewrite CopyN_exact. reflexivity.
  - replace (n >? threshold) with false
      by (symmetry; rewrite Z.gtb_ltb; apply Z.ltb_ge; lia).
    unfold read. cbn [reader io.Read]. rewrite repeat_length.
    replace (length first <=? Z.to_nat n)%nat with true
      by (symmetry; apply Nat.leb_le; rewrite <- Hlen, length_app; lia).
    replace (length first <? Z.to_nat n)%nat with true
      by (symmetry; apply Nat.ltb_lt; rewrite <- Hlen, length_app;
          unfold second; cbn [length]; lia).
    cbn [isEOF orb]. unfold withReader. cbn [buffer].
    replace (skipn (length first) (repeat x00 (Z.to_nat n)))
      with (repeat x00 (length second)); [reflexivity|].
    rewrite <- Hlen, Nat2Z.id, length_app, repeat_app.
    rewrite skipn_app, repeat_length, Nat.sub_diag.
    rewrite skipn_all2 by (rewrite repeat_length; lia). reflexivity.
Qed.

Lemma ReadBinary_two_chunks_witness :
  ReadBinary 1
    (NewStreamReader [io.Data [x00; x00; x00; x02; x68]; io.Data [x69; x00]])
  = (Some [x68; x69], None,
     {| reader := [io.Data [x00]];
        buffer := Array8 x00 x00 x00 x02 x00 x00 x00 x00 |})
  /\
  ReadBinary 2
    (NewStreamReader [io.Data [x00; x00; x00; x02; x68]; io.Data [x69; x00]])
  = (Some [x68; x00], Some ErrUnexpectedEOF,
     {| reader := [io.Data [x69; x00]];
        buffer := Array8 x00 x00 x00 x02 x00 x00 x00 x00 |}).
Proof.
  split.
  - apply (@ReadBinary_two_chunks 1 x00 x00 x00 x02 x68 x69 [] [] [x00] []
             (Array8 x00 x00 x00 x00 x00 x00 x00 x00)); reflexivity.
  - apply (@ReadBinary_two_chunks 2 x00 x00 x00 x02 x68 x69 [] [] [x00] []
             (Array8 x00 x00 x00 x00 x00 x00 x00 x00)); [reflexivity|].
    discriminate.
Defined.

(** ** Container and field headers *)

Lemma ReadInt8_range (sr : StreamReader) :
  - 2 ^ 7 <= fst (fst (ReadInt8 sr)) < 2 ^ 7.
Proof.
  unfold ReadInt8. destruct (readBuffer sr 1) as [[bs e] s1]. cbn [fst].
  apply (@signed_range 8). lia.
Qed.

Lemma ReadInt16_range (sr : StreamReader) :
  - 2 ^ 15 <= fst (fst (ReadInt16 sr)) < 2 ^ 15.
Proof.
  unfold ReadInt16. destruct (readBuffer sr 2) as [[bs e] s1]. cbn [fst].
  apply (@signed_range 16). lia.
Qed.

Lemma ReadInt32_range (sr : StreamReader) :
  - 2 ^ 31 <= fst (fst (ReadInt32 sr)) < 2 ^ 31.
Proof.
  unfold ReadInt32. destruct (readBuffer sr 4) as [[bs e] s1]. cbn [fst].
  apply (@signed_range 32). lia.
Qed.

Lemma readTypeSizeHeader_range (sr : StreamReader) :
  let '(t, n, err, _) := readTypeSizeHeader sr in
  match err with
  | None => - 2 ^ 7 <= t < 2 ^ 7 /\ 0 <= n < 2 ^ 31
  | Some _ => t = 0 /\ n = 0
  end.
Proof.
  unfold readTypeSizeHeader.
  pose proof (ReadInt8_range sr) as Ht.
  destruct (ReadInt8 sr) as [[t [e|]] s1]; [split; reflexivity|].
  pose proof (ReadInt32_range s1) as Hn.
  destruct (ReadInt32 s1) as [[n [e|]] s2]; [split; reflexivity|].
  cbn [fst] in Ht, Hn.
  destruct (n <? 0) eqn:E; [split; reflexivity|].
  apply Z.ltb_ge in E. split; [exact Ht | lia].
Qed.

(** X4: a header that comes without an error is in range: the length of a
    list, set or map is at least 0 and below 2^31, a type is an [int8] and
    a field id an [int16].  A header that comes with an error is the zero
    header, and [ReadFieldBegin] then returns [false].  [ReadSetBegin] and
    [ReadListBegin] read the same header: the same type, length, error and
    reader. *)
Theorem headers_in_range (sr : StreamReader) :
  (let '(lh, err, _) := ReadListBegin sr in
   match err with
   | None => - 2 ^ 7 <= stream.ListType lh < 2 ^ 7 /\
             0 <= stream.ListLength lh < 2 ^ 31
   | Some _ => lh = lh0
   end) /\
  (let '(sh, err, _) := ReadSetBegin sr in
   match err with
   | None => - 2 ^ 7 <= stream.SetType sh < 2 ^ 7 /\
             0 <= stream.SetLength sh < 2 ^ 31
   | Some _ => sh = sh0
   end) /\
  (let '(mh, err, _) := ReadMapBegin sr in
   match err with
   | None => - 2 ^ 7 <= stream.KeyType mh < 2 ^ 7 /\
             - 2 ^ 7 <= stream.ValueType mh < 2 ^ 7 /\
             0 <= stream.MapLength mh < 2 ^ 31
   | Some _ => mh = mh0
   end) /\
  (let '(fh, more, err, _) := ReadFieldBegin sr in
   match err with
   | None => - 2 ^ 7 <= stream.Type_ fh < 2 ^ 7 /\
             - 2 ^ 15 <= stream.ID fh < 2 ^ 15
   | Some _ => fh = fh0 /\ more = false
   end) /\
  (let '(lh, errl, srl) := ReadListBegin sr in
   let '(sh, errs, srs) := ReadSetBegin sr in
   stream.SetType sh = stream.ListType lh /\
   stream.SetLength sh = stream.ListLength lh /\
   errs = errl /\ srs = srl).
Proof.
  repeat split.
  - unfold ReadListBegin. pose proof (readTypeSizeHeader_range sr) as H.
    destruct (readTypeSizeHeader sr) as [[[t n] [e|]] s1]; [reflexivity | exact H].
  - unfold ReadSetBegin. pose proof (readTypeSizeHeader_range sr) as H.
    destruct (readTypeSizeHeader sr) as [[[t n] [e|]] s1]; [reflexivity | exact H].
  - unfold ReadMapBegin.
    pose proof (ReadInt8_range sr) as Hk.
    destruct (ReadInt8 sr) as [[k [e|]] s1]; [reflexivity|].
    pose proof (ReadInt8_range s1) as Hv.
    destruct (ReadInt8 s1) as [[v [e|]] s2]; [reflexivity|].
    pose proof (ReadInt32_range s2) as Hn.
    destruct (ReadInt32 s2) as [[n [e|]] s3]; [reflexivity|].
    cbn [fst] in Hk, Hv, Hn.
    destruct (n <? 0) eqn:E; [reflexivity|].
    apply Z.ltb_ge in E. cbn [stream.KeyType stream.ValueType stream.MapLength].
    repeat split; lia.
  - unfold ReadFieldBegin.
    pose proof (ReadInt8_range sr) as Ht.
    destruct (ReadInt8 sr) as [[t [e|]] s1]; [split; reflexivity|].
    pose proof (ReadInt16_range s1) as Hi.
    destruct (ReadInt16 s1) as [[i [e|]] s2]; [split; reflexivity|].
    cbn [fst] in Ht, Hi. cbn [stream.Type_ stream.ID]. split; lia.
  - unfold ReadListBegin, ReadSetBegin.
    destruct (readTypeSizeHeader sr) as [[[t n] [e|]] s1]; repeat split; reflexivity.
Qed.

(** ** Discarding from a source in chunks *)

Lemma CopyN_pending (src : io.Reader) :
  forall k : nat,
    io.faultless src = true ->
    (k <= length (io.pending src))%nat ->
    exists r,
      io.CopyN src (Z.of_nat k) = (firstn k (io.pending src), None, r) /\
      io.pending r = skipn k (io.pending src) /\
      io.faultless r = true.
Proof.
  induction src as [|[c|e] rest IH]; intros k Hf Hk;
    cbn [io.pending io.faultless] in *.
  - cbn [length] in Hk. assert (k = 0)%nat by lia. subst k.
    exists []. repeat split.
  - destruct k as [|k].
    { exists (io.Data c :: rest). rewrite CopyN_nonpositive by (cbn; lia).
      repeat split. exact Hf. }
    rewrite CopyN_positive_unfold by lia.
    rewrite length_app in Hk.
    destruct (Z.of_nat (length c) <=? Z.of_nat (S k)) eqn:E.
    + apply Z.leb_le in E.
      destruct (IH (S k - length c)%nat Hf ltac:(lia)) as (r & HC & Hp & Hfr).
      replace (Z.of_nat (S k) - Z.of_nat (length c))
        with (Z.of_nat (S k - length c)) by lia.
      rewrite HC. exists r. split; [|split; [|exact Hfr]].
      * rewrite firstn_app, (firstn_all2 (n := S k) c) by lia. reflexivity.
      * rewrite skipn_app, (skipn_all2 (n := S k) c) by lia. exact Hp.
    + apply Z.leb_gt in E. rewrite Nat2Z.id.
      exists (io.Data (skipn (S k) c) :: rest). split; [|split; [|exact Hf]].
      * rewrite firstn_app.
        replace (S k - length c)%nat with O by lia.
        cbn [firstn]. rewrite app_nil_r. reflexivity.
      * cbn [io.pending]. rewrite skipn_app.
        replace (S k - length c)%nat with O by lia. reflexivity.
  - discriminate Hf.
Qed.

Lemma discard_takes (sr : StreamReader) (n : Z) :
  io.faultless (reader sr) = true ->
  0 <= n <= Z.of_nat (length (io.pending (reader sr))) ->
  exists sr',
    discard sr n = (None, sr') /\
    io.pending (reader sr') = skipn (Z.to_nat n) (io.pending (reader sr)) /\
    io.faultless (reader sr') = true /\
    buffer sr' = buffer sr.
Proof.
  intros Hf Hn. unfold discard.
  destruct (@CopyN_pending (reader sr) (Z.to_nat n) Hf ltac:(lia))
    as (r & HC & Hp & Hfr).
  rewrite Z2Nat.id in HC by lia. rewrite HC.
  exists (withReader sr r). repeat split; assumption.
Qed.

(** X5: [discard] of [n <= 0] bytes leaves the reader as it is.  On a
    source that never fails and still holds at least [n] bytes, [discard]
    of [n] bytes succeeds however the bytes come in chunks, and takes
    exactly the first [n] of them; the scratch array is not touched. *)
Theorem discard_pending (sr : StreamReader) (n : Z) :
  (n <= 0 -> discard sr n = (None, sr)) /\
  (io.faultless (reader sr) = true ->
   0 <= n <= Z.of_nat (length (io.pending (reader sr))) ->
   exists sr',
     discard sr n = (None, sr') /\
     io.pending (reader sr') = skipn (Z.to_nat n) (io.pending (reader sr)) /\
     io.faultless (reader sr') = true /\
     buffer sr' = buffer sr).
Proof.
  split.
  - intros Hn. unfold discard. rewrite CopyN_nonpositive by exact Hn.
    destruct sr; reflexivity.
  - apply discard_takes.
Qed.

Lemma discard_pending_witness :
  exists sr',
    discard (NewStreamReader [io.Data [x01; x02]; io.Data [x03; x04; x05]]) 3
    = (None, sr') /\
    io.pending (reader sr') = [x04; x05] /\
    io.faultless (reader sr') = true /\
    buffer sr' = Array8 x00 x00 x00 x00 x00 x00 x00 x00.
Proof.
  apply (proj2 (discard_pending
                  (NewStreamReader [io.Data [x01; x02]; io.Data [x03; x04; x05]]) 3)).
  - reflexivity.
  - cbn. lia.
Defined.

(** ** Skipping scalars, binary values and unknown types *)

(** X6: [Skip] of a fixed-width type takes exactly [fixedWidth t] bytes
    from a source that never fails and holds that many, whatever its
    chunks; [Skip] of the [BINARY] type takes the four bytes of the length
    [n] from the chunk at hand and then exactly [n] bytes, whatever their
    chunks. *)
Theorem Skip_scalar_and_binary (fuel : nat) :
  (forall (t : wire.Type_) (sr : StreamReader),
     fixedWidth t > 0 ->
     io.faultless (reader sr) = true ->
     fixedWidth t <= Z.of_nat (length (io.pending (reader sr))) ->
     exists sr',
       Skip (S fuel) t sr = Some (None, sr') /\
       io.pending (reader sr')
       = skipn (Z.to_nat (fixedWidth t)) (io.pending (reader sr))) /\
  (forall (l3 l2 l1 l0 : byte) (c : list byte) (rest : io.Reader) (buf : array8),
     let n := int32 (bigEndian.Uint32 [l3; l2; l1; l0]) in
     io.faultless rest = true ->
     0 <= n <= Z.of_nat (length (c ++ io.pending rest)) ->
     exists sr',
       Skip (S fuel) wire.TBinary
         {| reader := io.Data ([l3; l2; l1; l0] ++ c) :: rest; buffer := buf |}
       = Some (None, sr') /\
       io.pending (reader sr') = skipn (Z.to_nat n) (c ++ io.pending rest)).
Proof.
  split.
  - intros t sr Hw Hf Hlen. cbn [Skip].
    replace (fixedWidth t >? 0) with true by (symmetry; apply Z.gtb_lt; lia).
    destruct (@discard_takes sr (fixedWidth t) Hf ltac:(lia))
      as (sr' & HD & Hp & _).
    rewrite HD. exists sr'. split; [reflexivity | exact Hp].
  - intros l3 l2 l1 l0 c rest buf n Hf Hn.
    change (Skip (S fuel) wire.TBinary ?s)
      with (let '(length, err, sr) := ReadInt32 s in
            match err with
            | Some e => Some (Some e, sr)
            | None =>
                if length <? 0 then Some (Some (ErrNegativeLength length), sr)
                else Some (discard sr length)
            end).
    cbn [app]. rewrite ReadInt32_chunk. fold n.
    replace (n <? 0) with false by (symmetry; apply Z.ltb_ge; lia).
    destruct (@discard_takes
                {| reader := io.unread c rest;
                   buffer := store [l3; l2; l1; l0] buf |} n)
      as (sr' & HD & Hp & _).
    + cbn [reader]. rewrite unread_faultless. exact Hf.
    + cbn [reader]. rewrite unread_pending. exact Hn.
    + rewrite HD. exists sr'. split; [reflexivity|].
      rewrite Hp. cbn [reader]. rewrite unread_pending. reflexivity.
Qed.

Lemma Skip_scalar_and_binary_witness :
  exists sr',
    Skip 1 wire.TI64
      (NewStreamReader [io.Data [x01; x02; x03]; io.Data [x04; x05; x06; x07; x08; x09]])
    = Some (None, sr') /\
    io.pending (reader sr') = [x09].
Proof.
  apply (proj1 (Skip_scalar_and_binary 0) wire.TI64
           (NewStreamReader
              [io.Data [x01; x02; x03]; io.Data [x04; x05; x06; x07; x08; x09]])).
  - reflexivity.
  - reflexivity.
  - cbn. lia.
Defined.

(** X7: a type code that is none of the eleven known ones makes [Skip] fail
    with the unknown-type error that carries the code, without reading
    anything: the reader is left as it was.  The stop code 0 is such a code. *)
Theorem Skip_unknown_type (fuel : nat) (t : wire.Type_) (sr : StreamReader) :
  ~ In t knownTypes ->
  Skip (S fuel) t sr = Some (Some (ErrUnknownTType t), sr).
Proof.
  intros Hk. unfold knownTypes in Hk. cbn [In] in Hk.
  assert (Hne : forall c, (t =? c) = true -> c = t)
    by (intros c E; apply Z.eqb_eq in E; congruence).
  cbn [Skip]. unfold fixedWidth.
  destruct (t =? wire.TBool) eqn:E1; [exfalso; apply Hk; pose proof (Hne _ E1); tauto|].
  destruct (t =? wire.TI8) eqn:E2; [exfalso; apply Hk; pose proof (Hne _ E2); tauto|].
  destruct (t =? wire.TDouble) eqn:E3; [exfalso; apply Hk; pose proof (Hne _ E3); tauto|].
  destruct (t =? wire.TI16) eqn:E4; [exfalso; apply Hk; pose proof (Hne _ E4); tauto|].
  destruct (t =? wire.TI32) eqn:E5; [exfalso; apply Hk; pose proof (Hne _ E5); tauto|].
  destruct (t =? wire.TI64) eqn:E6; [exfalso; apply Hk; pose proof (Hne _ E6); tauto|].
  cbn [Z.gtb Z.compare].
  destruct (t =? wire.TBinary) eqn:E7; [exfalso; apply Hk; pose proof (Hne _ E7); tauto|].
  destruct (t =? wire.TStruct) eqn:E8; [exfalso; apply Hk; pose proof (Hne _ E8); tauto|].
  destruct (t =? wire.TMap) eqn:E9; [exfalso; apply Hk; pose proof (Hne _ E9); tauto|].
  destruct (t =? wire.TSet) eqn:E10; [exfalso; apply Hk; pose proof (Hne _ E10); tauto|].
  destruct (t =? wire.TList) eqn:E11; [exfalso; apply Hk; pose proof (Hne _ E11); tauto|].
  reflexivity.
Qed.

Lemma Skip_unknown_type_witness :
  Skip 1 0 (NewStreamReader [io.Data [x2a]])
  = Some (Some (ErrUnknownTType 0), NewStreamReader [io.Data [x2a]]).
Proof.
  apply (@Skip_unknown_type 0 0 (NewStreamReader [io.Data [x2a]])).
  cbn. intuition discriminate.
Defined.

(** ** Skipping a whole value *)

Lemma ReadInt8_holding (b : byte) (c : list byte) (rest : io.Reader) (buf : array8) :
  ReadInt8 (holding (b :: c) rest buf)
  = (int8 (u8 b), None, holding c rest (store [b] buf)).
Proof. apply ReadInt8_chunk. Qed.

Lemma ReadInt32_holding (b3 b2 b1 b0 : byte) (c : list byte) (rest : io.Reader)
      (buf : array8) :
  ReadInt32 (holding (b3 :: b2 :: b1 :: b0 :: c) rest buf)
  = (int32 (bigEndian.Uint32 [b3; b2; b1; b0]), None,
     holding c rest (store [b3; b2; b1; b0] buf)).
Proof. apply ReadInt32_chunk. Qed.

Lemma discard_holding (n : Z) (p c : list byte) (rest : io.Reader) (buf : array8) :
  Z.of_nat (length p) = n ->
  discard (holding (p ++ c) rest buf) n = (None, holding c rest buf).
Proof. apply discard_exact. Qed.

Lemma readTypeSizeHeader_holding (tb l3 l2 l1 l0 : byte) (c : list byte)
      (rest : io.Reader) (buf : array8) :
  0 <= int32 (bigEndian.Uint32 [l3; l2; l1; l0]) ->
  readTypeSizeHeader (holding (tb :: l3 :: l2 :: l1 :: l0 :: c) rest buf)
  = (int8 (u8 tb), int32 (bigEndian.Uint32 [l3; l2; l1; l0]), None,
     holding c rest (store [l3; l2; l1; l0] (store [tb] buf))).
Proof.
  intros Hn. unfold readTypeSizeHeader.
  rewrite ReadInt8_holding, ReadInt32_holding.
  replace (int32 (bigEndian.Uint32 [l3; l2; l1; l0]) <? 0) with false
    by (symmetry; apply Z.ltb_ge; exact Hn).
  reflexivity.
Qed.

(** A value of a fixed-width type is as long as the type is wide. *)
Lemma Value_fixed_length (t : wire.Type_) (bs : list byte) :
  Value t bs -> fixedWidth t > 0 -> Z.of_nat (length bs) = fixedWidth t.
Proof.
  intros H Hw. inversion H; subst; try (cbv in Hw; discriminate Hw). assumption.
Qed.

Lemma Elems_fixed_length (t : wire.Type_) (n : nat) (bs : list byte) :
  Elems t n bs -> fixedWidth t > 0 ->
  Z.of_nat (length bs) = fixedWidth t * Z.of_nat n.
Proof.
  intros H Hw. induction H as [t|t n v rest Hv Hrest IH].
  - cbn [length]. lia.
  - rewrite length_app. pose proof (Value_fixed_length Hv Hw). specialize (IH Hw). lia.
Qed.

Lemma Pairs_fixed_length (k v : wire.Type_) (n : nat) (bs : list byte) :
  Pairs k v n bs -> fixedWidth k > 0 -> fixedWidth v > 0 ->
  Z.of_nat (length bs) = Z.of_nat n * (fixedWidth k + fixedWidth v).
Proof.
  intros H Hk Hv. induction H as [k v|k v n kbs vbs rest Hkbs Hvbs Hrest IH].
  - cbn [length]. lia.
  - rewrite !length_app.
    pose proof (Value_fixed_length Hkbs Hk). pose proof (Value_fixed_length Hvbs Hv).
    specialize (IH Hk Hv). lia.
Qed.

Lemma Value_nonempty (t : wire.Type_) (bs : list byte) :
  Value t bs -> bs <> [].
Proof.
  intros H. inversion H as [t' bs' Hw Hl| | bs' Hf | | |]; subst; try discriminate.
  - destruct bs; [cbn [length] in Hl; lia | discriminate].
  - inversion Hf; discriminate.
Qed.

Lemma Skip_value_mutual :
  (forall t bs, Value t bs -> skipsOver (fun fuel => Skip fuel t) bs) /\
  (forall bs, Fields bs -> skipsOver skipStruct bs) /\
  (forall t n bs, Elems t n bs ->
     forall i size, size = i + Z.of_nat n ->
     skipsOver (fun fuel => skipListLoop fuel i size t) bs) /\
  (forall k v n bs, Pairs k v n bs ->
     forall i size, size = i + Z.of_nat n ->
     skipsOver (fun fuel => skipMapLoop fuel i size k v) bs).
Proof.
  apply Value_mutind; unfold skipsOver.
  - (* a fixed-width scalar *)
    intros t bs Hw Hlen. exists 1%nat. intros [|fuel] Hf c rest buf; [lia|].
    exists buf. cbn [Skip].
    replace (fixedWidth t >? 0) with true by (symmetry; apply Z.gtb_lt; lia).
    rewrite (discard_holding bs c rest buf Hlen). reflexivity.
  - (* a binary value *)
    intros l3 l2 l1 l0 payload Hlen. exists 1%nat.
    intros [|fuel] Hf c rest buf; [lia|].
    exists (store [l3; l2; l1; l0] buf).
    rewrite <- app_assoc. cbn [app].
    change (Skip (S fuel) wire.TBinary ?s)
      with (let '(length, err, sr) := ReadInt32 s in
            match err with
            | Some e => Some (Some e, sr)
            | None =>
                if length <? 0 then Some (Some (ErrNegativeLength length), sr)
                else Some (discard sr length)
            end).
    rewrite ReadInt32_holding. rewrite <- Hlen.
    replace (Z.of_nat (length payload) <? 0) with false
      by (symmetry; apply Z.ltb_ge; lia).
    rewrite (discard_holding payload c rest _ eq_refl). reflexivity.
  - (* a struct *)
    intros bs _ [f0 IH]. exists (S f0). intros [|fuel] Hf c rest buf; [lia|].
    destruct (IH fuel ltac:(lia) c rest buf) as [buf' E].
    exists buf'. exact E.
  - (* a map *)
    intros kb vb l3 l2 l1 l0 n bs Hn HP IH.
    destruct (IH 0 (int32 (bigEndian.Uint32 [l3; l2; l1; l0])) ltac:(lia)) as [f0 IH0].
    exists (S (S f0)). intros [|[|fuel]] Hf c rest buf; try lia.
    change (Skip (S (S fuel)) wire.TMap ?s) with (skipMap (S fuel) s).
    cbn [skipMap]. rewrite <- app_assoc. cbn [app].
    rewrite ReadInt8_holding, ReadInt8_holding, ReadInt32_holding.
    replace (int32 (bigEndian.Uint32 [l3; l2; l1; l0]) <? 0) with false
      by (symmetry; apply Z.ltb_ge; lia).
    destruct ((fixedWidth (int8 (u8 kb)) >? 0) && (fixedWidth (int8 (u8 vb)) >? 0))
      eqn:Efix.
    + apply andb_prop in Efix. destruct Efix as [Ek Ev].
      apply Z.gtb_lt in Ek, Ev.
      pose proof (Pairs_fixed_length HP ltac:(lia) ltac:(lia)) as Hlen.
      rewrite Hn in Hlen.
      eexists. rewrite (discard_holding bs c rest _ Hlen). reflexivity.
    + apply IH0. lia.
  - (* a set *)
    intros tb l3 l2 l1 l0 n bs Hn HE IH.
    destruct (IH 0 (int32 (bigEndian.Uint32 [l3; l2; l1; l0])) ltac:(lia)) as [f0 IH0].
    exists (S (S f0)). intros [|[|fuel]] Hf c rest buf; try lia.
    change (Skip (S (S fuel)) wire.TSet ?s) with (skipList (S fuel) s).
    cbn [skipList]. rewrite <- app_assoc. cbn [app].
    rewrite readTypeSizeHeader_holding by lia.
    destruct (fixedWidth (int8 (u8 tb)) >? 0) eqn:Efix.
    + apply Z.gtb_lt in Efix.
      pose proof (Elems_fixed_length HE ltac:(lia)) as Hlen. rewrite Hn in Hlen.
      eexists. rewrite (discard_holding bs c rest _ Hlen). reflexivity.
    + apply IH0. lia.
  - (* a list *)
    intros tb l3 l2 l1 l0 n bs Hn HE IH.
    destruct (IH 0 (int32 (bigEndian.Uint32 [l3; l2; l1; l0])) ltac:(lia)) as [f0 IH0].
    exists (S (S f0)). intros [|[|fuel]] Hf c rest buf; try lia.
    change (Skip (S (S fuel)) wire.TList ?s) with (skipList (S fuel) s).
    cbn [skipList]. rewrite <- app_assoc. cbn [app].
    rewrite readTypeSizeHeader_holding by lia.
    destruct (fixedWidth (int8 (u8 tb)) >? 0) eqn:Efix.
    + apply Z.gtb_lt in Efix.
      pose proof (Elems_fixed_length HE ltac:(lia)) as Hlen. rewrite Hn in Hlen.
      eexists. rewrite (discard_holding bs c rest _ Hlen). reflexivity.
    + apply IH0. lia.
  - (* the stop byte *)
    exists 2%nat. intros [|[|fuel]] Hf c rest buf; try lia.
    exists (store [x00] buf). cbn [skipStruct app].
    rewrite ReadInt8_holding. reflexivity.
  - (* a field *)
    intros tb i1 i0 v more Htb _ [fv IHv] _ [ff IHf].
    exists (S (S (Nat.max fv ff))). intros [|[|fuel]] Hf c rest buf; try lia.
    destruct (IHv fuel ltac:(lia) (more ++ c) rest (store [tb] buf)) as [buf1 Ev].
    destruct (IHf (S fuel) ltac:(lia) c rest buf1) as [buf2 Ef].
    exists buf2. cbn [skipStruct]. rewrite <- !app_assoc. cbn [app].
    rewrite ReadInt8_holding. cbn [skipStructLoop].
    rewrite int8_zero. apply byte_eqb_neq in Htb. rewrite Htb. cbn [negb].
    rewrite (discard_holding [i1; i0] (v ++ more ++ c) rest _ eq_refl).
    rewrite Ev. exact Ef.
  - (* no element *)
    intros t i size Hs. exists 1%nat. intros [|fuel] Hf c rest buf; [lia|].
    exists buf. cbn [skipListLoop app].
    replace (i <? size) with false by (symmetry; apply Z.ltb_ge; lia).
    reflexivity.
  - (* an element *)
    intros t n v more _ [fv IHv] _ IH i size Hs.
    destruct (IH (i + 1) size ltac:(lia)) as [fe IHe].
    exists (S (Nat.max fv fe)). intros [|fuel] Hf c rest buf; [lia|].
    destruct (IHv fuel ltac:(lia) (more ++ c) rest buf) as [buf1 Ev].
    destruct (IHe fuel ltac:(lia) c rest buf1) as [buf2 Ee].
    exists buf2. cbn [skipListLoop]. rewrite <- app_assoc.
    replace (i <? size) with true by (symmetry; apply Z.ltb_lt; lia).
    rewrite Ev. exact Ee.
  - (* no pair *)
    intros k v i size Hs. exists 1%nat. intros [|fuel] Hf c rest buf; [lia|].
    exists buf. cbn [skipMapLoop app].
    replace (i <? size) with false by (symmetry; apply Z.ltb_ge; lia).
    reflexivity.
  - (* a pair *)
    intros k v n kbs vbs more _ [fk IHk] _ [fv IHv] _ IH i size Hs.
    destruct (IH (i + 1) size ltac:(lia)) as [fp IHp].
    exists (S (Nat.max fk (Nat.max fv fp))). intros [|fuel] Hf c rest buf; [lia|].
    destruct (IHk fuel ltac:(lia) (vbs ++ more ++ c) rest buf) as [buf1 Ek].
    destruct (IHv fuel ltac:(lia) (more ++ c) rest buf1) as [buf2 Ev].
    destruct (IHp fuel ltac:(lia) c rest buf2) as [buf3 Ep].
    exists buf3. cbn [skipMapLoop]. rewrite <- !app_assoc.
    replace (i <? size) with true by (symmetry; apply Z.ltb_lt; lia).
    rewrite Ek, Ev. exact Ep.
Qed.

Lemma Skip_value_result (t : wire.Type_) (bs c : list byte) (rest : io.Reader)
      (buf : array8) :
  Value t bs ->
  let sr := holding (bs ++ c) rest buf in
  exists buf',
    Skip (skipFuel sr) t sr = Some (None, holding c rest buf') /\
    forall fuel r, Skip fuel t sr = Some r -> r = (None, holding c rest buf').
Proof.
  intros HV sr.
  destruct (proj1 Skip_value_mutual t bs HV) as [f0 H0].
  destruct (H0 f0 (Nat.le_refl _) c rest buf) as [buf' E0]. fold sr in E0.
  exists buf'.
  assert (U : forall fuel r, Skip fuel t sr = Some r -> r = (None, holding c rest buf'))
    by (intros fuel r E; exact (@Skip_result_unique _ _ _ _ _ _ E E0)).
  split; [|exact U].
  destruct (Skip_terminates t sr) as (err & sr' & E & _).
  rewrite E. f_equal. exact (U _ _ E).
Qed.

(** X8: [Skip] takes exactly one value.  When the chunk at hand starts with
    bytes that have the shape of a value of type [t] (a scalar, a binary
    value, or a struct, map, set or list nested to any depth), [Skip] of
    [t] returns no error and leaves the reader right behind these bytes,
    whatever follows them; no bound on the recursion gives another result. *)
Theorem Skip_takes_one_value (t : wire.Type_) (bs c : list byte) (rest : io.Reader)
        (buf : array8) :
  Value t bs ->
  let sr := {| reader := io.Data (bs ++ c) :: rest; buffer := buf |} in
  exists buf',
    Skip (skipFuel sr) t sr
    = Some (None, {| reader := io.unread c rest; buffer := buf' |}) /\
    forall fuel r,
      Skip fuel t sr = Some r ->
      r = (None, {| reader := io.unread c rest; buffer := buf' |}).
Proof.
  intros HV sr.
  pose proof (Skip_value_result c rest buf HV) as H.
  assert (E : holding (bs ++ c) rest buf = sr).
  { pose proof (Value_nonempty HV) as Hne.
    destruct bs; [congruence | reflexivity]. }
  rewrite E in H. exact H.
Qed.

(** The struct [{1: i32 = 7, 2: string = "hi"}], followed by one more byte. *)
Lemma Skip_takes_one_value_witness :
  let sr := NewStreamReader
              [io.Data [x08; x00; x01; x00; x00; x00; x07;
                        x0b; x00; x02; x00; x00; x00; x02; x68; x69;
                        x00; xff]] in
  exists buf',
    Skip (skipFuel sr) wire.TStruct sr
    = Some (None, {| reader := [io.Data [xff]]; buffer := buf' |}) /\
    forall fuel r,
      Skip fuel wire.TStruct sr = Some r ->
      r = (None, {| reader := [io.Data [xff]]; buffer := buf' |}).
Proof.
  apply (@Skip_takes_one_value wire.TStruct
           [x08; x00; x01; x00; x00; x00; x07;
            x0b; x00; x02; x00; x00; x00; x02; x68; x69; x00]
           [xff] [] (Array8 x00 x00 x00 x00 x00 x00 x00 x00)).
  apply Value_struct.
  apply (Fields_cons x00 x01 (v := [x00; x00; x00; x07])
           (rest := [x0b; x00; x02; x00; x00; x00; x02; x68; x69; x00]));
    [discriminate | apply Value_fixed; reflexivity |].
  apply (Fields_cons x00 x02 (v := [x00; x00; x00; x02; x68; x69]) (rest := [x00]));
    [discriminate | apply (Value_binary x00 x00 x00 x02 [x68; x69]); reflexivity |].
  apply Fields_stop.
Defined.

(** ** Reading a struct field by field *)

(** X9: reading and skipping agree on a struct with one field.  On the bytes
    of a field header, a value of the header's type and the stop byte,
    [ReadFieldBegin] returns the header, [Skip] of the header's type takes
    the value, and [ReadStructEnd] takes the stop byte and succeeds; the
    reader is then where [Skip] of the [STRUCT] type leaves it on the same
    bytes. *)
Theorem read_field_then_skip (tb i1 i0 : byte) (v c : list byte) (rest : io.Reader)
        (buf : array8) :
  tb <> x00 ->
  Value (int8 (u8 tb)) v ->
  let sr := {| reader := io.Data ([tb; i1; i0] ++ v ++ [x00] ++ c) :: rest;
               buffer := buf |} in
  exists sr1 sr2 sr3 sr4,
    ReadFieldBegin sr
    = ({| stream.ID := int16 (bigEndian.Uint16 [i1; i0]);
          stream.Type_ := int8 (u8 tb) |}, true, None, sr1) /\
    Skip (skipFuel sr1) (int8 (u8 tb)) sr1 = Some (None, sr2) /\
    ReadFieldEnd sr2 = (None, sr2) /\
    ReadStructEnd sr2 = (None, sr3) /\
    reader sr3 = io.unread c rest /\
    Skip (skipFuel sr) wire.TStruct sr = Some (None, sr4) /\
    reader sr4 = reader sr3.
Proof.
  intros Htb HV sr.
  destruct (Skip_value_result ([x00] ++ c) rest (store [i1; i0] (store [tb] buf)) HV)
    as (buf2 & E2 & _).
  assert (HS : Value wire.TStruct ([tb; i1; i0] ++ v ++ [x00])).
  { apply Value_struct. apply Fields_cons; [exact Htb | exact HV | apply Fields_stop]. }
  destruct (Skip_value_result c rest buf HS) as (buf4 & E4 & _).
  exists (holding (v ++ [x00] ++ c) rest (store [i1; i0] (store [tb] buf))).
  exists (holding ([x00] ++ c) rest buf2).
  exists (holding c rest (store [x00] buf2)).
  exists (holding c rest buf4).
  repeat split.
  - unfold ReadFieldBegin, sr. cbn [app].
    rewrite ReadInt8_chunk, unread_cons, ReadInt16_chunk. reflexivity.
  - exact E2.
  - unfold ReadStructEnd. cbn [app]. rewrite ReadInt8_holding. reflexivity.
  - rewrite <- !app_assoc in E4. exact E4.
Qed.

Lemma read_field_then_skip_witness :
  let sr := NewStreamReader
              [io.Data [x0b; x00; x02; x00; x00; x00; x02; x68; x69; x00; xff]] in
  exists sr1 sr2 sr3 sr4,
    ReadFieldBegin sr
    = ({| stream.ID := int16 (bigEndian.Uint16 [x00; x02]);
          stream.Type_ := int8 (u8 x0b) |}, true, None, sr1) /\
    Skip (skipFuel sr1) (int8 (u8 x0b)) sr1 = Some (None, sr2) /\
    ReadFieldEnd sr2 = (None, sr2) /\
    ReadStructEnd sr2 = (None, sr3) /\
    reader sr3 = [io.Data [xff]] /\
    Skip (skipFuel sr) wire.TStruct sr = Some (None, sr4) /\
    reader sr4 = reader sr3.
Proof.
  apply (@read_field_then_skip x0b x00 x02 [x00; x00; x00; x02; x68; x69] [xff] []
           (Array8 x00 x00 x00 x00 x00 x00 x00 x00)).
  - discriminate.
  - apply (Value_binary x00 x00 x00 x02 [x68; x69]). reflexivity.
Defined.

(** ** The reader only moves forward *)

Lemma passed_refl (sr : StreamReader) : passed sr sr.
Proof. exists []. reflexivity. Qed.

Lemma passed_trans (a b c : StreamReader) : passed a b -> passed b c -> passed a c.
Proof.
  intros [d1 H1] [d2 H2]. exists (d1 ++ d2). rewrite H1, H2. apply app_assoc.
Qed.

Lemma took_passed (a b : StreamReader) (e : option error) : took a e b -> passed a b.
Proof. intros (d & H & _). exists d. exact H. Qed.

Lemma took_error (a b : StreamReader) (e : error) : passed a b -> took a (Some e) b.
Proof. intros [d H]. exists d. split; [exact H | discriminate]. Qed.

Lemma took_then (a b c : StreamReader) (e : option error) :
  took a None b -> passed b c -> took a e c.
Proof.
  intros (d1 & H1 & N1) [d2 H2]. exists (d1 ++ d2). split.
  - rewrite H1, H2. apply app_assoc.
  - intros _ E. apply app_eq_nil in E. destruct E as [E _]. now apply N1.
Qed.

Lemma took_any (a b : StreamReader) (e : option error) : took a None b -> took a e b.
Proof. intros H. apply (@took_then a b b e H (passed_refl b)). Qed.

Lemma passed_then_took (a b c : StreamReader) (e : option error) :
  passed a b -> took b e c -> took a e c.
Proof.
  intros [d1 H1] (d2 & H2 & N2). exists (d1 ++ d2). split.
  - rewrite H1, H2. apply app_assoc.
  - intros E E'. apply app_eq_nil in E'. destruct E' as [_ E']. now apply N2.
Qed.

Lemma Read_pending (r : io.Reader) (n : nat) :
  let '(d, err, r') := io.Read r n in
  io.pending r = d ++ io.pending r' /\ (length d <= n)%nat.
Proof.
  destruct r as [|[c|e] rest]; cbn [io.Read io.pending].
  - split; [reflexivity | cbn; lia].
  - destruct (length c <=? n)%nat eqn:E.
    + apply Nat.leb_le in E. split; [reflexivity | exact E].
    + cbn [io.pending]. rewrite app_assoc, firstn_skipn.
      split; [reflexivity | apply firstn_le_length].
  - split; [reflexivity | cbn; lia].
Qed.

Lemma read_took (sr : StreamReader) (bs : list byte) :
  (0 < length bs)%nat ->
  let '(_, err, _, sr') := read sr bs in took sr err sr'.
Proof.
  intros Hbs. unfold read.
  pose proof (Read_pending (reader sr) (length bs)) as H.
  destruct (io.Read (reader sr) (length bs)) as [[d err] r].
  destruct H as [H Hle]. exists d. cbn [reader withReader]. split; [exact H|].
  destruct (isEOF err || (length d <? length bs)%nat) eqn:E; [discriminate|].
  apply orb_false_elim in E. destruct E as [_ E]. apply Nat.ltb_ge in E.
  intros _ ->. cbn [length] in E. lia.
Qed.

Lemma readBuffer_took (sr : StreamReader) (k : nat) :
  (0 < k <= 8)%nat ->
  let '(_, err, sr') := readBuffer sr k in took sr err sr'.
Proof.
  intros Hk. unfold readBuffer.
  pose proof (read_took sr (firstn k (elems (buffer sr)))) as H.
  rewrite scratch_length in H by lia. specialize (H (proj1 Hk)).
  destruct (read sr (firstn k (elems (buffer sr)))) as [[[n err] bs] sr'].
  exact H.
Qed.

Lemma CopyN_took (src : io.Reader) :
  forall n : Z,
    let '(w, err, r) := io.CopyN src n in
    io.pending src = w ++ io.pending r /\ (err = None -> 0 < n -> w <> []).
Proof.
  induction src as [|[c|e] rest IH]; intros n;
    (destruct (Z_le_gt_dec n 0) as [Hn|Hn];
     [ rewrite CopyN_nonpositive by exact Hn; split; [reflexivity | intros; lia]
     | rewrite CopyN_positive_unfold by lia ]).
  - split; [reflexivity | discriminate].
  - destruct (Z.of_nat (length c) <=? n) eqn:E.
    + specialize (IH (n - Z.of_nat (length c))).
      destruct (io.CopyN rest (n - Z.of_nat (length c))) as [[w err] r].
      destruct IH as [IH N]. cbn [io.pending]. rewrite IH. split.
      * apply app_assoc.
      * intros He _ Hnil. apply app_eq_nil in Hnil. destruct Hnil as [-> Hw].
        cbn [length] in N. apply (N He); [lia | exact Hw].
    + apply Z.leb_gt in E. cbn [io.pending]. split.
      * rewrite app_assoc, firstn_skipn. reflexivity.
      * intros _ _ Hnil. apply (f_equal (@length byte)) in Hnil.
        rewrite length_firstn in Hnil. cbn [length] in Hnil. lia.
  - cbn [io.pending]. split; [reflexivity | discriminate].
Qed.

Lemma discard_took (sr : StreamReader) (n : Z) :
  let '(err, sr') := discard sr n in
  passed sr sr' /\ (0 < n -> took sr err sr').
Proof.
  unfold discard. pose proof (CopyN_took (reader sr) n) as H.
  destruct (io.CopyN (reader sr) n) as [[w err] r]. destruct H as [H N].
  split.
  - exists w. exact H.
  - intros Hn. exists w. split; [exact H|].
    destruct err as [[]|]; cbn [isEOF]; try discriminate. intros _. now apply N.
Qed.

Lemma ReadInt8_took (sr : StreamReader) :
  let '(_, err, sr') := ReadInt8 sr in took sr err sr'.
Proof.
  unfold ReadInt8. pose proof (readBuffer_took sr (k := 1) ltac:(lia)) as H.
  destruct (readBuffer sr 1) as [[bs err] sr']. exact H.
Qed.

Lemma ReadInt32_took (sr : StreamReader) :
  let '(_, err, sr') := ReadInt32 sr in took sr err sr'.
Proof.
  unfold ReadInt32. pose proof (readBuffer_took sr (k := 4) ltac:(lia)) as H.
  destruct (readBuffer sr 4) as [[bs err] sr']. exact H.
Qed.

Lemma readTypeSizeHeader_took (sr : StreamReader) :
  let '(_, _, err, sr') := readTypeSizeHeader sr in took sr err sr'.
Proof.
  unfold readTypeSizeHeader. pose proof (ReadInt8_took sr) as H.
  destruct (ReadInt8 sr) as [[v [e|]] sr1]; [exact H|].
  pose proof (ReadInt32_took sr1) as H1.
  destruct (ReadInt32 sr1) as [[v1 [e|]] sr2]; [eauto using took_passed, took_error, took_any, took_then|].
  destruct (v1 <? 0); eauto using took_passed, took_error, took_any, took_then.
Qed.

Lemma Skip_forward (fuel : nat) :
  (forall t sr, skipTook sr (Skip fuel t sr)) /\
  (forall sr, skipTook sr (skipStruct fuel sr)) /\
  (forall fieldType sr, skipPassed sr (skipStructLoop fuel fieldType sr)) /\
  (forall sr, skipTook sr (skipMap fuel sr)) /\
  (forall i size key value sr, skipPassed sr (skipMapLoop fuel i size key value sr)) /\
  (forall sr, skipTook sr (skipList fuel sr)) /\
  (forall i size elemType sr, skipPassed sr (skipListLoop fuel i size elemType sr)).
Proof.
  induction fuel as [|fuel IH].
  - repeat split; intros; exact I.
  - destruct IH as (ISkip & IStruct & IStructLoop & IMap & IMapLoop & IList & IListLoop).
    unfold skipTook, skipPassed in *.
    repeat split.
    + (* Skip *)
      intros t sr. cbn [Skip].
      destruct (fixedWidth t >? 0) eqn:Ew.
      { apply Z.gtb_lt in Ew. pose proof (discard_took sr (fixedWidth t)) as H.
        destruct (discard sr (fixedWidth t)) as [err sr']. apply H. lia. }
      destruct (t =? wire.TBinary).
      { pose proof (ReadInt32_took sr) as H.
        destruct (ReadInt32 sr) as [[len [e|]] sr1]; [exact H|].
        destruct (len <? 0); [solve [eauto 6 using passed_refl, passed_trans, took_passed, took_error, took_any, took_then, passed_then_took]|].
        pose proof (discard_took sr1 len) as H1.
        destruct (discard sr1 len) as [err sr2]. destruct H1 as [H1 _]. solve [eauto 6 using passed_refl, passed_trans, took_passed, took_error, took_any, took_then, passed_then_took]. }
      destruct (t =? wire.TStruct); [apply IStruct|].
      destruct (t =? wire.TMap); [apply IMap|].
      destruct (t =? wire.TSet); [apply IList|].
      destruct (t =? wire.TList); [apply IList|].
      apply took_error, passed_refl.
    + (* skipStruct *)
      intros sr. cbn [skipStruct].
      pose proof (ReadInt8_took sr) as H.
      destruct (ReadInt8 sr) as [[ft [e|]] sr1]; [exact H|].
      pose proof (IStructLoop ft sr1) as HL.
      destruct (skipStructLoop fuel ft sr1) as [[err sr2]|]; [solve [eauto 6 using passed_refl, passed_trans, took_passed, took_error, took_any, took_then, passed_then_took] | exact I].
    + (* skipStructLoop *)
      intros ft sr. cbn [skipStructLoop].
      destruct (negb (ft =? 0)); [|apply passed_refl].
      pose proof (discard_took sr 2) as H.
      destruct (discard sr 2) as [[e|] sr1]; destruct H as [H _]; [exact H|].
      pose proof (ISkip ft sr1) as H1.
      destruct (Skip fuel ft sr1) as [[[e|] sr2]|];
        [exact (passed_trans H (took_passed H1))| |exact I].
      pose proof (ReadInt8_took sr2) as H2.
      destruct (ReadInt8 sr2) as [[ft' [e|]] sr3];
        [exact (passed_trans H (passed_trans (took_passed H1) (took_passed H2)))|].
      pose proof (IStructLoop ft' sr3) as H3.
      destruct (skipStructLoop fuel ft' sr3) as [[err sr4]|]; [|exact I].
      apply (passed_trans H). apply (passed_trans (took_passed H1)).
      apply (passed_trans (took_passed H2)). exact H3.
    + (* skipMap *)
      intros sr. cbn [skipMap].
      pose proof (ReadInt8_took sr) as H.
      destruct (ReadInt8 sr) as [[k [e|]] sr1]; [exact H|].
      pose proof (ReadInt8_took sr1) as H1.
      destruct (ReadInt8 sr1) as [[v [e|]] sr2]; [solve [eauto 6 using passed_refl, passed_trans, took_passed, took_error, took_any, took_then, passed_then_took]|].
      pose proof (ReadInt32_took sr2) as H2.
      destruct (ReadInt32 sr2) as [[n [e|]] sr3]; [solve [eauto 6 using passed_refl, passed_trans, took_passed, took_error, took_any, took_then, passed_then_took]|].
      assert (H3 : took sr None sr3) by solve [eauto 6 using passed_refl, passed_trans, took_passed, took_error, took_any, took_then, passed_then_took].
      destruct (n <? 0); [solve [eauto 6 using passed_refl, passed_trans, took_passed, took_error, took_any, took_then, passed_then_took]|].
      destruct ((fixedWidth k >? 0) && (fixedWidth v >? 0)).
      * pose proof (discard_took sr3 (n * (fixedWidth k + fixedWidth v))) as H4.
        destruct (discard sr3 (n * (fixedWidth k + fixedWidth v))) as [err sr4].
        destruct H4 as [H4 _]. solve [eauto 6 using passed_refl, passed_trans, took_passed, took_error, took_any, took_then, passed_then_took].
      * pose proof (IMapLoop 0 n k v sr3) as H4.
        destruct (skipMapLoop fuel 0 n k v sr3) as [[err sr4]|]; [solve [eauto 6 using passed_refl, passed_trans, took_passed, took_error, took_any, took_then, passed_then_took] | exact I].
    + (* skipMapLoop *)
      intros i size k v sr. cbn [skipMapLoop].
      destruct (i <? size); [|apply passed_refl].
      pose proof (ISkip k sr) as H.
      destruct (Skip fuel k sr) as [[[e|] sr1]|]; [exact (took_passed H)| |exact I].
      pose proof (ISkip v sr1) as H1.
      destruct (Skip fuel v sr1) as [[[e|] sr2]|];
        [exact (passed_trans (took_passed H) (took_passed H1))| |exact I].
      pose proof (IMapLoop (i + 1) size k v sr2) as H2.
      destruct (skipMapLoop fuel (i + 1) size k v sr2) as [[err sr3]|]; [|exact I].
      apply (passed_trans (took_passed H)). apply (passed_trans (took_passed H1)).
      exact H2.
    + (* skipList *)
      intros sr. cbn [skipList].
      pose proof (readTypeSizeHeader_took sr) as H.
      destruct (readTypeSizeHeader sr) as [[[t n] [e|]] sr1]; [exact H|].
      destruct (fixedWidth t >? 0).
      * pose proof (discard_took sr1 (fixedWidth t * n)) as H1.
        destruct (discard sr1 (fixedWidth t * n)) as [err sr2].
        destruct H1 as [H1 _]. solve [eauto 6 using passed_refl, passed_trans, took_passed, took_error, took_any, took_then, passed_then_took].
      * pose proof (IListLoop 0 n t sr1) as H1.
        destruct (skipListLoop fuel 0 n t sr1) as [[err sr2]|]; [solve [eauto 6 using passed_refl, passed_trans, took_passed, took_error, took_any, took_then, passed_then_took] | exact I].
    + (* skipListLoop *)
      intros i size t sr. cbn [skipListLoop].
      destruct (i <? size); [|apply passed_refl].
      pose proof (ISkip t sr) as H.
      destruct (Skip fuel t sr) as [[[e|] sr1]|]; [exact (took_passed H)| |exact I].
      pose proof (IListLoop (i + 1) size t sr1) as H1.
      destruct (skipListLoop fuel (i + 1) size t sr1) as [[err sr2]|]; [|exact I].
      apply (passed_trans (took_passed H)). exact H1.
Qed.

(** X10: [Skip] returns on every input and for every type code: the bound
    [skipFuel], three times what the source has left plus two, is enough,
    and no bound gives another result.  The result is never [io.EOF].  The
    reader only moves forward: the bytes left are the bytes that were
    there without a front part, and when [Skip] returns no error that part
    is not empty. *)
Theorem Skip_always_returns (t : wire.Type_) (sr : StreamReader) :
  exists err sr',
    Skip (skipFuel sr) t sr = Some (err, sr') /\
    (forall fuel r, Skip fuel t sr = Some r -> r = (err, sr')) /\
    err <> Some EOF /\
    exists d : list byte,
      io.pending (reader sr) = d ++ io.pending (reader sr') /\
      (err = None -> d <> []).
Proof.
  destruct (Skip_terminates t sr) as (err & sr' & E & Hne & _).
  exists err, sr'. split; [exact E|]. split; [|split; [exact Hne|]].
  - intros fuel r E'. exact (@Skip_result_unique _ _ _ _ _ _ E' E).
  - pose proof (proj1 (Skip_forward (skipFuel sr)) t sr) as H.
    rewrite E in H. exact H.
Qed.

(** ** What a successful Skip has taken *)

Lemma list_length1 (l : list byte) : length l = 1%nat -> exists b, l = [b].
Proof. destruct l as [|b [|]]; try discriminate. exists b. reflexivity. Qed.

Lemma list_length2 (l : list byte) : length l = 2%nat -> exists b1 b0, l = [b1; b0].
Proof. destruct l as [|b1 [|b0 [|]]]; try discriminate. exists b1, b0. reflexivity. Qed.

Lemma list_length4 (l : list byte) :
  length l = 4%nat -> exists b3 b2 b1 b0, l = [b3; b2; b1; b0].
Proof.
  destruct l as [|b3 [|b2 [|b1 [|b0 [|]]]]]; try discriminate.
  exists b3, b2, b1, b0. reflexivity.
Qed.

Lemma readBuffer_bytes (sr : StreamReader) (k : nat) :
  (k <= 8)%nat ->
  let '(bs, err, sr') := readBuffer sr k in
  err = None ->
  io.pending (reader sr) = bs ++ io.pending (reader sr') /\ length bs = k.
Proof.
  intros Hk. unfold readBuffer, read. rewrite scratch_length by exact Hk.
  pose proof (Read_pending (reader sr) k) as H.
  destruct (io.Read (reader sr) k) as [[d err] r]. destruct H as [H Hle].
  cbn [reader withReader].
  destruct (isEOF err || (length d <? k)%nat) eqn:E; [discriminate|].
  apply orb_false_elim in E. destruct E as [_ E]. apply Nat.ltb_ge in E.
  intros _. assert (Hd : length d = k) by lia.
  rewrite skipn_all2 by (rewrite scratch_length; lia).
  rewrite app_nil_r. split; [exact H | exact Hd].
Qed.

Lemma ReadInt8_bytes (sr sr' : StreamReader) (v : Z) :
  ReadInt8 sr = (v, None, sr') ->
  exists b, io.pending (reader sr) = b :: io.pending (reader sr') /\ v = int8 (u8 b).
Proof.
  unfold ReadInt8. pose proof (@readBuffer_bytes sr 1 ltac:(lia)) as H.
  destruct (readBuffer sr 1) as [[bs err] s1]. intros E. injection E as <- -> <-.
  destruct (H eq_refl) as [Hp Hl]. destruct (list_length1 _ Hl) as [b ->].
  exists b. split; [exact Hp | reflexivity].
Qed.

Lemma ReadInt32_bytes (sr sr' : StreamReader) (v : Z) :
  ReadInt32 sr = (v, None, sr') ->
  exists b3 b2 b1 b0,
    io.pending (reader sr) = [b3; b2; b1; b0] ++ io.pending (reader sr') /\
    v = int32 (bigEndian.Uint32 [b3; b2; b1; b0]).
Proof.
  unfold ReadInt32. pose proof (@readBuffer_bytes sr 4 ltac:(lia)) as H.
  destruct (readBuffer sr 4) as [[bs err] s1]. intros E. injection E as <- -> <-.
  destruct (H eq_refl) as [Hp Hl].
  destruct (list_length4 _ Hl) as (b3 & b2 & b1 & b0 & ->).
  exists b3, b2, b1, b0. split; [exact Hp | reflexivity].
Qed.

Lemma CopyN_bytes (src : io.Reader) :
  forall n : Z,
    let '(w, err, r) := io.CopyN src n in
    err = None ->
    io.pending src = w ++ io.pending r /\ Z.of_nat (length w) = Z.max 0 n.
Proof.
  induction src as [|[c|e] rest IH]; intros n;
    (destruct (Z_le_gt_dec n 0) as [Hn|Hn];
     [ rewrite CopyN_nonpositive by exact Hn; intros _; split;
       [reflexivity | cbn [length]; lia]
     | rewrite CopyN_positive_unfold by lia ]); try discriminate.
  destruct (Z.of_nat (length c) <=? n) eqn:E.
  - apply Z.leb_le in E. specialize (IH (n - Z.of_nat (length c))).
    destruct (io.CopyN rest (n - Z.of_nat (length c))) as [[w err] r].
    intros He. destruct (IH He) as [Hp Hl]. cbn [io.pending]. rewrite Hp. split.
    + apply app_assoc.
    + rewrite length_app. lia.
  - apply Z.leb_gt in E. intros _. cbn [io.pending]. split.
    + rewrite app_assoc, firstn_skipn. reflexivity.
    + rewrite length_firstn. lia.
Qed.

Lemma discard_bytes (sr sr' : StreamReader) (n : Z) :
  discard sr n = (None, sr') ->
  exists w,
    io.pending (reader sr) = w ++ io.pending (reader sr') /\
    Z.of_nat (length w) = Z.max 0 n.
Proof.
  unfold discard. pose proof (CopyN_bytes (reader sr) n) as H.
  destruct (io.CopyN (reader sr) n) as [[w err] r].
  destruct err as [[]|]; cbn [isEOF]; intros E; try discriminate E.
  injection E as <-. exists w. apply H. reflexivity.
Qed.

Lemma readTypeSizeHeader_bytes (sr sr' : StreamReader) (t n : Z) :
  readTypeSizeHeader sr = (t, n, None, sr') ->
  exists tb l3 l2 l1 l0,
    io.pending (reader sr) = [tb; l3; l2; l1; l0] ++ io.pending (reader sr') /\
    t = int8 (u8 tb) /\ n = int32 (bigEndian.Uint32 [l3; l2; l1; l0]) /\ 0 <= n.
Proof.
  unfold readTypeSizeHeader.
  destruct (ReadInt8 sr) as [[t0 [e|]] s1] eqn:E1; [discriminate|].
  destruct (ReadInt32 s1) as [[n0 [e|]] s2] eqn:E2; [discriminate|].
  destruct (n0 <? 0) eqn:En; [discriminate|]. apply Z.ltb_ge in En.
  intros E. injection E as <- <- <-.
  destruct (@ReadInt8_bytes _ _ _ E1) as (tb & Hp1 & ->).
  destruct (@ReadInt32_bytes _ _ _ E2) as (l3 & l2 & l1 & l0 & Hp2 & ->).
  exists tb, l3, l2, l1, l0. rewrite Hp1, Hp2. repeat split. exact En.
Qed.

(** Bytes of the right length are elements, and pairs, of fixed-width
    types. *)
Lemma Elems_of_fixed (t : wire.Type_) :
  fixedWidth t > 0 ->
  forall (n : nat) (p : list byte),
    Z.of_nat (length p) = fixedWidth t * Z.of_nat n -> Elems t n p.
Proof.
  intros Hw. induction n as [|n IH]; intros p Hl.
  - destruct p; [constructor | cbn [length] in Hl; lia].
  - rewrite <- (firstn_skipn (Z.to_nat (fixedWidth t)) p).
    constructor.
    + apply Value_fixed; [exact Hw|]. rewrite length_firstn. lia.
    + apply IH. rewrite length_skipn. lia.
Qed.

Lemma Pairs_of_fixed (k v : wire.Type_) :
  fixedWidth k > 0 -> fixedWidth v > 0 ->
  forall (n : nat) (p : list byte),
    Z.of_nat (length p) = Z.of_nat n * (fixedWidth k + fixedWidth v) ->
    Pairs k v n p.
Proof.
  intros Hk Hv. induction n as [|n IH]; intros p Hl.
  - destruct p; [constructor | cbn [length] in Hl; lia].
  - rewrite <- (firstn_skipn (Z.to_nat (fixedWidth k)) p).
    rewrite <- (firstn_skipn (Z.to_nat (fixedWidth v))
                  (skipn (Z.to_nat (fixedWidth k)) p)).
    constructor.
    + apply Value_fixed; [exact Hk|]. rewrite length_firstn. lia.
    + apply Value_fixed; [exact Hv|]. rewrite length_firstn, length_skipn. lia.
    + apply IH. rewrite !length_skipn. lia.
Qed.

Lemma Skip_success_mutual (fuel : nat) :
  (forall t sr sr',
     Skip fuel t sr = Some (None, sr') ->
     exists v, io.pending (reader sr) = v ++ io.pending (reader sr') /\ Value t v) /\
  (forall sr sr',
     skipStruct fuel sr = Some (None, sr') ->
     exists v, io.pending (reader sr) = v ++ io.pending (reader sr') /\ Fields v) /\
  (forall fieldType sr sr',
     skipStructLoop fuel fieldType sr = Some (None, sr') ->
     exists v, io.pending (reader sr) = v ++ io.pending (reader sr') /\
               forall tb, int8 (u8 tb) = fieldType -> Fields (tb :: v)) /\
  (forall sr sr',
     skipMap fuel sr = Some (None, sr') ->
     exists v, io.pending (reader sr) = v ++ io.pending (reader sr') /\
               Value wire.TMap v) /\
  (forall i size key value sr sr',
     skipMapLoop fuel i size key value sr = Some (None, sr') ->
     exists v, io.pending (reader sr) = v ++ io.pending (reader sr') /\
               Pairs key value (Z.to_nat (size - i)) v) /\
  (forall sr sr',
     skipList fuel sr = Some (None, sr') ->
     exists tb l3 l2 l1 l0 n v,
       io.pending (reader sr) = ([tb; l3; l2; l1; l0] ++ v) ++ io.pending (reader sr') /\
       Z.of_nat n = int32 (bigEndian.Uint32 [l3; l2; l1; l0]) /\
       Elems (int8 (u8 tb)) n v) /\
  (forall i size elemType sr sr',
     skipListLoop fuel i size elemType sr = Some (None, sr') ->
     exists v, io.pending (reader sr) = v ++ io.pending (reader sr') /\
               Elems elemType (Z.to_nat (size - i)) v).
Proof.
  induction fuel as [|fuel IH].
  - repeat split; intros; discriminate.
  - destruct IH as (ISkip & IStruct & IStructLoop & IMap & IMapLoop & IList & IListLoop).
    repeat split.
    + (* Skip *)
      intros t sr sr'. cbn [Skip].
      destruct (fixedWidth t >? 0) eqn:Ew.
      { apply Z.gtb_lt in Ew. intros E. injection E as E.
        destruct (@discard_bytes _ _ _ E) as (w & Hp & Hl).
        exists w. split; [exact Hp|]. apply Value_fixed; lia. }
      destruct (t =? wire.TBinary) eqn:Eb.
      { apply Z.eqb_eq in Eb. subst t.
        destruct (ReadInt32 sr) as [[len [e|]] s1] eqn:E1; [discriminate|].
        destruct (len <? 0) eqn:En; [discriminate|]. apply Z.ltb_ge in En.
        intros E. injection E as E.
        destruct (@ReadInt32_bytes _ _ _ E1) as (l3 & l2 & l1 & l0 & Hp1 & ->).
        destruct (@discard_bytes _ _ _ E) as (w & Hp & Hl).
        exists ([l3; l2; l1; l0] ++ w). split.
        - rewrite Hp1, Hp. apply app_assoc.
        - apply Value_binary. lia. }
      destruct (t =? wire.TStruct) eqn:Es.
      { apply Z.eqb_eq in Es. subst t. intros E.
        destruct (IStruct _ _ E) as (v & Hp & Hf).
        exists v. split; [exact Hp | apply Value_struct, Hf]. }
      destruct (t =? wire.TMap) eqn:Em.
      { apply Z.eqb_eq in Em. subst t. apply IMap. }
      destruct (t =? wire.TSet) eqn:Et.
      { apply Z.eqb_eq in Et. subst t. intros E.
        destruct (IList _ _ E) as (tb & l3 & l2 & l1 & l0 & n & v & Hp & Hn & He).
        eexists. split; [exact Hp | apply (Value_set _ _ _ _ _ Hn He)]. }
      destruct (t =? wire.TList) eqn:El; [|discriminate].
      apply Z.eqb_eq in El. subst t. intros E.
      destruct (IList _ _ E) as (tb & l3 & l2 & l1 & l0 & n & v & Hp & Hn & He).
      eexists. split; [exact Hp | apply (Value_list _ _ _ _ _ Hn He)].
    + (* skipStruct *)
      intros sr sr'. cbn [skipStruct].
      destruct (ReadInt8 sr) as [[ft [e|]] s1] eqn:E1; [discriminate|].
      intros E. destruct (@ReadInt8_bytes _ _ _ E1) as (tb & Hp1 & Hft).
      destruct (IStructLoop _ _ _ E) as (v & Hp & Hf).
      exists (tb :: v). split.
      * rewrite Hp1, Hp. reflexivity.
      * apply Hf. symmetry. exact Hft.
    + (* skipStructLoop *)
      intros ft sr sr'. cbn [skipStructLoop].
      destruct (negb (ft =? 0)) eqn:E0.
      * apply negb_true_iff, Z.eqb_neq in E0.
        destruct (discard sr 2) as [[e|] s1] eqn:Ed; [discriminate|].
        destruct (Skip fuel ft s1) as [[[e|] s2]|] eqn:Es; try discriminate.
        destruct (ReadInt8 s2) as [[ft' [e|]] s3] eqn:E1; [discriminate|].
        intros E.
        destruct (@discard_bytes _ _ _ Ed) as (w & Hpw & Hlw).
        destruct (@list_length2 w ltac:(lia)) as (i1 & i0 & ->).
        destruct (ISkip _ _ _ Es) as (val & Hpv & HV).
        destruct (@ReadInt8_bytes _ _ _ E1) as (tb' & Hp1 & Hft').
        destruct (IStructLoop _ _ _ E) as (v' & Hp' & Hf').
        exists ([i1; i0] ++ val ++ tb' :: v'). split.
        -- rewrite Hpw, Hpv, Hp1, Hp'. rewrite <- !app_assoc. reflexivity.
        -- intros tb Htb.
           apply (Fields_cons i1 i0 (tb := tb) (v := val) (rest := tb' :: v')).
           ++ intros ->. apply E0. rewrite <- Htb. reflexivity.
           ++ rewrite Htb. exact HV.
           ++ apply Hf'. symmetry. exact Hft'.
      * apply negb_false_iff, Z.eqb_eq in E0. subst ft.
        intros E. injection E as <-. exists []. split; [reflexivity|].
        intros tb Htb.
        assert (Hz : Byte.eqb tb x00 = true)
          by (rewrite <- int8_zero; apply Z.eqb_eq; exact Htb).
        apply byte_eqb_eq in Hz. subst tb. apply Fields_stop.
    + (* skipMap *)
      intros sr sr'. cbn [skipMap].
      destruct (ReadInt8 sr) as [[k [e|]] s1] eqn:E1; [discriminate|].
      destruct (ReadInt8 s1) as [[v [e|]] s2] eqn:E2; [discriminate|].
      destruct (ReadInt32 s2) as [[n [e|]] s3] eqn:E3; [discriminate|].
      destruct (n <? 0) eqn:En; [discriminate|]. apply Z.ltb_ge in En.
      destruct (@ReadInt8_bytes _ _ _ E1) as (kb & Hp1 & ->).
      destruct (@ReadInt8_bytes _ _ _ E2) as (vb & Hp2 & ->).
      destruct (@ReadInt32_bytes _ _ _ E3) as (l3 & l2 & l1 & l0 & Hp3 & Hn).
      destruct ((fixedWidth (int8 (u8 kb)) >? 0) && (fixedWidth (int8 (u8 vb)) >? 0))
        eqn:Efix.
      * apply andb_prop in Efix. destruct Efix as [Ek Ev].
        apply Z.gtb_lt in Ek, Ev.
        intros E. injection E as E.
        destruct (@discard_bytes _ _ _ E) as (w & Hp & Hl).
        exists ([kb; vb; l3; l2; l1; l0] ++ w). split.
        -- rewrite Hp1, Hp2, Hp3, Hp. reflexivity.
        -- apply (Value_map kb vb l3 l2 l1 l0 (n := Z.to_nat n)); [lia|].
           apply Pairs_of_fixed; nia.
      * intros E. destruct (IMapLoop _ _ _ _ _ _ E) as (w & Hp & HP).
        exists ([kb; vb; l3; l2; l1; l0] ++ w). split.
        -- rewrite Hp1, Hp2, Hp3, Hp. reflexivity.
        -- apply (Value_map kb vb l3 l2 l1 l0 (n := Z.to_nat n)); [lia|].
           rewrite Z.sub_0_r in HP. exact HP.
    + (* skipMapLoop *)
      intros i size k v sr sr'. cbn [skipMapLoop].
      destruct (i <? size) eqn:Ei.
      * apply Z.ltb_lt in Ei.
        destruct (Skip fuel k sr) as [[[e|] s1]|] eqn:Ek; try discriminate.
        destruct (Skip fuel v s1) as [[[e|] s2]|] eqn:Ev; try discriminate.
        intros E.
        destruct (ISkip _ _ _ Ek) as (kbs & Hpk & HK).
        destruct (ISkip _ _ _ Ev) as (vbs & Hpv & HV).
        destruct (IMapLoop _ _ _ _ _ _ E) as (more & Hpm & HP).
        exists (kbs ++ vbs ++ more). split.
        -- rewrite Hpk, Hpv, Hpm. rewrite <- !app_assoc. reflexivity.
        -- replace (Z.to_nat (size - i)) with (S (Z.to_nat (size - (i + 1)))) by lia.
           constructor; assumption.
      * apply Z.ltb_ge in Ei. intros E. injection E as <-.
        exists []. split; [reflexivity|].
        replace (Z.to_nat (size - i)) with O by lia. constructor.
    + (* skipList *)
      intros sr sr'. cbn [skipList].
      destruct (readTypeSizeHeader sr) as [[[t n] [e|]] s1] eqn:Eh; [discriminate|].
      destruct (@readTypeSizeHeader_bytes _ _ _ _ Eh)
        as (tb & l3 & l2 & l1 & l0 & Hp1 & -> & Hn & Hn0).
      destruct (fixedWidth (int8 (u8 tb)) >? 0) eqn:Efix.
      * apply Z.gtb_lt in Efix. intros E. injection E as E.
        destruct (@discard_bytes _ _ _ E) as (w & Hp & Hl).
        exists tb, l3, l2, l1, l0, (Z.to_nat n), w. split; [|split].
        -- rewrite Hp1, Hp. apply app_assoc.
        -- lia.
        -- apply Elems_of_fixed; nia.
      * intros E. destruct (IListLoop _ _ _ _ _ E) as (w & Hp & HE).
        exists tb, l3, l2, l1, l0, (Z.to_nat n), w. split; [|split].
        -- rewrite Hp1, Hp. apply app_assoc.
        -- lia.
        -- rewrite Z.sub_0_r in HE. exact HE.
    + (* skipListLoop *)
      intros i size t sr sr'. cbn [skipListLoop].
      destruct (i <? size) eqn:Ei.
      * apply Z.ltb_lt in Ei.
        destruct (Skip fuel t sr) as [[[e|] s1]|] eqn:Es; try discriminate.
        intros E.
        destruct (ISkip _ _ _ Es) as (v & Hpv & HV).
        destruct (IListLoop _ _ _ _ _ E) as (more & Hpm & HE).
        exists (v ++ more). split.
        -- rewrite Hpv, Hpm. apply app_assoc.
        -- replace (Z.to_nat (size - i)) with (S (Z.to_nat (size - (i + 1)))) by lia.
           constructor; assumption.
      * apply Z.ltb_ge in Ei. intros E. injection E as <-.
        exists []. split; [reflexivity|].
        replace (Z.to_nat (size - i)) with O by lia. constructor.
Qed.

(** X11: whenever [Skip] of the type [t] returns no error, whatever the
    source and its chunks, the bytes it took from the front of the input
    have the shape of one value of type [t]: [Skip] accepts nothing else. *)
Theorem Skip_success_is_value (fuel : nat) (t : wire.Type_) (sr sr' : StreamReader) :
  Skip fuel t sr = Some (None, sr') ->
  exists v, io.pending (reader sr) = v ++ io.pending (reader sr') /\ Value t v.
Proof. apply (proj1 (Skip_success_mutual fuel)). Qed.

(** A set of two binary values, of three bytes and of none, in three
    chunks. *)
Lemma Skip_success_is_value_witness :
  exists v,
    [x0b; x00; x00; x00; x02; x00; x00; x00; x03; xaa; xbb; xcc;
     x00; x00; x00; x00; x7f]
    = v ++ [x7f] /\
    Value wire.TSet v.
Proof.
  apply (@Skip_success_is_value 5 wire.TSet
           (NewStreamReader
              [io.Data [x0b; x00; x00; x00; x02];
               io.Data [x00; x00; x00; x03; xaa];
               io.Data [xbb; xcc; x00; x00; x00; x00; x7f]])
           {| reader := [io.Data [x7f]];
              buffer := Array8 x00 x00 x00 x00 x00 x00 x00 x00 |}).
  reflexivity.
Defined.

(** ** What a successful read has taken *)

Lemma read_bytes (sr : StreamReader) (bs : list byte) :
  let '(_, err, bs', sr') := read sr bs in
  err = None ->
  io.pending (reader sr) = bs' ++ io.pending (reader sr') /\ length bs' = length bs.
Proof.
  unfold read. pose proof (Read_pending (reader sr) (length bs)) as H.
  destruct (io.Read (reader sr) (length bs)) as [[d err] r]. destruct H as [H Hle].
  cbn [reader withReader].
  destruct (isEOF err || (length d <? length bs)%nat) eqn:E; [discriminate|].
  apply orb_false_elim in E. destruct E as [_ E]. apply Nat.ltb_ge in E.
  intros _. rewrite skipn_all2 by lia. rewrite app_nil_r.
  split; [exact H | lia].
Qed.

(** X12: whenever [ReadBinary] returns no error, whatever the source, its
    chunks and [bytesAllocThreshold], the slice it returns is not nil and
    holds exactly the bytes that followed the length prefix, as many as the
    prefix says; the reader has taken the prefix and these bytes, and
    nothing else. *)
Theorem ReadBinary_success (threshold : Z) (sr sr' : StreamReader) (s : slice) :
  ReadBinary threshold sr = (s, None, sr') ->
  exists l3 l2 l1 l0 payload,
    s = Some payload /\
    io.pending (reader sr) = [l3; l2; l1; l0] ++ payload ++ io.pending (reader sr') /\
    Z.of_nat (length payload) = int32 (bigEndian.Uint32 [l3; l2; l1; l0]).
Proof.
  unfold ReadBinary.
  destruct (ReadInt32 sr) as [[len [e|]] s1] eqn:E1; [discriminate|].
  destruct (@ReadInt32_bytes _ _ _ E1) as (l3 & l2 & l1 & l0 & Hp1 & Hlen).
  destruct (len <? 0) eqn:En; [discriminate|]. apply Z.ltb_ge in En.
  destruct (len =? 0) eqn:E0.
  { apply Z.eqb_eq in E0. intros E. injection E as <- <-.
    exists l3, l2, l1, l0, []. repeat split; [exact Hp1 | cbn [length]; lia]. }
  apply Z.eqb_neq in E0.
  destruct (len >? threshold).
  - pose proof (CopyN_bytes (reader s1) len) as HC.
    destruct (io.CopyN (reader s1) len) as [[w err] r].
    destruct err as [[]|]; cbn [isEOF]; intros E; try discriminate E.
    injection E as <- <-. destruct (HC eq_refl) as [Hp Hl].
    exists l3, l2, l1, l0, w. repeat split.
    + rewrite Hp1, Hp. reflexivity.
    + lia.
  - pose proof (read_bytes s1 (repeat x00 (Z.to_nat len))) as HR.
    destruct (read s1 (repeat x00 (Z.to_nat len))) as [[[k err] bs] s2].
    intros E. injection E as <- -> <-. destruct (HR eq_refl) as [Hp Hl].
    rewrite repeat_length in Hl.
    exists l3, l2, l1, l0, bs. repeat split.
    + rewrite Hp1, Hp. reflexivity.
    + lia.
Qed.

Lemma ReadBinary_success_witness :
  exists l3 l2 l1 l0 payload,
    Some [x68; x69] = Some payload /\
    [x00; x00; x00; x02; x68; x69; x00]
    = [l3; l2; l1; l0] ++ payload ++ [x00] /\
    Z.of_nat (length payload) = int32 (bigEndian.Uint32 [l3; l2; l1; l0]).
Proof.
  apply (@ReadBinary_success 1
           (NewStreamReader [io.Data [x00; x00; x00; x02; x68]; io.Data [x69; x00]])
           {| reader := [io.Data [x00]];
              buffer := Array8 x00 x00 x00 x02 x00 x00 x00 x00 |}
           (Some [x68; x69])).
  reflexivity.
Defined.

Lemma list_length8 (l : list byte) :
  length l = 8%nat ->
  exists b7 b6 b5 b4 b3 b2 b1 b0, l = [b7; b6; b5; b4; b3; b2; b1; b0].
Proof.
  destruct l as [|b7 [|b6 [|b5 [|b4 [|b3 [|b2 [|b1 [|b0 [|]]]]]]]]]; try discriminate.
  exists b7, b6, b5, b4, b3, b2, b1, b0. reflexivity.
Qed.

(** X13: whenever a scalar reader returns no error, whatever the source and
    its chunks, it has taken exactly 1, 2, 4 or 8 bytes from the front of
    the input, and nothing else, and its result is the big-endian value of
    these bytes; [ReadBool] returns no error only on the bytes 0 and 1. *)
Theorem scalar_read_success (sr sr' : StreamReader) :
  (forall v, ReadBool sr = (v, None, sr') ->
     exists b, io.pending (reader sr) = [b] ++ io.pending (reader sr') /\
               (b = x00 /\ v = false \/ b = x01 /\ v = true)) /\
  (forall v, ReadInt8 sr = (v, None, sr') ->
     exists b, io.pending (reader sr) = [b] ++ io.pending (reader sr') /\
               v = int8 (u8 b)) /\
  (forall v, ReadInt16 sr = (v, None, sr') ->
     exists b1 b0, io.pending (reader sr) = [b1; b0] ++ io.pending (reader sr') /\
                   v = int16 (bigEndian.Uint16 [b1; b0])) /\
  (forall v, ReadInt32 sr = (v, None, sr') ->
     exists b3 b2 b1 b0,
       io.pending (reader sr) = [b3; b2; b1; b0] ++ io.pending (reader sr') /\
       v = int32 (bigEndian.Uint32 [b3; b2; b1; b0])) /\
  (forall v, ReadInt64 sr = (v, None, sr') ->
     exists b7 b6 b5 b4 b3 b2 b1 b0,
       io.pending (reader sr)
       = [b7; b6; b5; b4; b3; b2; b1; b0] ++ io.pending (reader sr') /\
       v = int64 (bigEndian.Uint64 [b7; b6; b5; b4; b3; b2; b1; b0])).
Proof.
  repeat split.
  - intros v. unfold ReadBool.
    pose proof (@readBuffer_bytes sr 1 ltac:(lia)) as H.
    destruct (readBuffer sr 1) as [[bs [e|]] s1]; [discriminate|].
    destruct (H eq_refl) as [Hp Hl]. destruct (list_length1 _ Hl) as [b ->].
    unfold idx. cbn [nth]. rewrite u8_zero, u8_one.
    destruct (Byte.eqb b x00) eqn:E0.
    + intros E. injection E as <- <-. apply byte_eqb_eq in E0.
      exists b. split; [exact Hp | left; split; [exact E0 | reflexivity]].
    + destruct (Byte.eqb b x01) eqn:E1; [|discriminate].
      intros E. injection E as <- <-. apply byte_eqb_eq in E1.
      exists b. split; [exact Hp | right; split; [exact E1 | reflexivity]].
  - intros v E. destruct (@ReadInt8_bytes _ _ _ E) as (b & Hp & Hv).
    exists b. split; assumption.
  - intros v. unfold ReadInt16.
    pose proof (@readBuffer_bytes sr 2 ltac:(lia)) as H.
    destruct (readBuffer sr 2) as [[bs err] s1]. intros E. injection E as <- -> <-.
    destruct (H eq_refl) as [Hp Hl]. destruct (list_length2 _ Hl) as (b1 & b0 & ->).
    exists b1, b0. split; [exact Hp | reflexivity].
  - intros v E. exact (@ReadInt32_bytes _ _ _ E).
  - intros v. unfold ReadInt64.
    pose proof (@readBuffer_bytes sr 8 ltac:(lia)) as H.
    destruct (readBuffer sr 8) as [[bs err] s1]. intros E. injection E as <- -> <-.
    destruct (H eq_refl) as [Hp Hl].
    destruct (list_length8 _ Hl) as (b7 & b6 & b5 & b4 & b3 & b2 & b1 & b0 & ->).
    exists b7, b6, b5, b4, b3, b2, b1, b0. split; [exact Hp | reflexivity].
Qed.

Lemma scalar_read_success_witness :
  exists b1 b0,
    [x01; x02; x03] = [b1; b0] ++ [x03] /\
    258 = int16 (bigEndian.Uint16 [b1; b0]).
Proof.
  apply (proj1 (proj2 (proj2
           (scalar_read_success
              (NewStreamReader [io.Data [x01; x02]; io.Data [x03]])
              {| reader := [io.Data [x03]];
                 buffer := Array8 x01 x02 x00 x00 x00 x00 x00 x00 |}))) 258).
  reflexivity.
Defined.
